(** * anchorpy client generator: accounts, errors and instruction builders

    A shallow embedding of
    - [examples/client-gen/basic_2/accounts/counter.py] (module [Counter]),
    - [examples/client-gen/tictactoe/errors/__init__.py] (module [errors]),
    - [src/anchorpy/clientgen/instructions.py] (module [instructions]),
    together with the library behaviour these files rely on: the base58
    text form of a public key and the fixed-width little-endian layouts of
    [borsh_construct].

    Python values are modelled as follows: [int] is [Z], [bytes] is
    [list byte], [str] is [string] (log lines and identifiers are ASCII
    text), a dict with string keys is a [gmap string _], and a call that may
    raise is a computation in the [result] monad below. *)

From Stdlib Require Import ZArith List Lia Bool.
From Stdlib Require Import Strings.Byte Strings.Ascii Strings.String.
From stdpp Require Import base option list gmap strings.

Import ListNotations.
Set Warnings "-register-all".
Local Open Scope string_scope.
Local Open Scope list_scope.
Local Open Scope Z_scope.

(** ** Exceptions and the result monad *)

Inductive exn : Type :=
| ValueError (msg : string)
| TypeError (msg : string)
| UnboundLocalError (var : string)
| AccountInvalidDiscriminator (msg : string)
| StreamError
| BinasciiError
| IndexError.

Inductive result (A : Type) : Type :=
| Returns (a : A)
| Raises (e : exn).

Arguments Returns {A} a.
Arguments Raises {A} e.

#[global] Instance result_ret : MRet result := fun A a => Returns a.

#[global] Instance result_bind : MBind result := fun A B k c =>
  match c with
  | Returns a => k a
  | Raises e => Raises e
  end.

(** ** Bytes *)

#[global] Instance byte_eq_decision : EqDecision byte := Byte.byte_eq_dec.

Definition byte_to_Z (b : byte) : Z := Z.of_N (Byte.to_N b).

Definition byte_of_Z (z : Z) : byte :=
  match Byte.of_N (Z.to_N z) with
  | Some b => b
  | None => x00
  end.

(** ** Positional numerals

    [from_digits b l] is the loop [for d in l: acc = acc * b + d]
    ([int.from_bytes(_, 'big')] for [b = 256], [b58decode_int] for [b = 58]).
    [to_digits b fuel i acc] is the loop
    [while i: i, d = divmod(i, b); acc = [d] + acc]; a number below
    [2 ^ fuel] is exhausted within [fuel] rounds. *)

Definition from_digits (b : Z) (l : list Z) : Z :=
  fold_left (fun acc d => acc * b + d) l 0.

Fixpoint to_digits (b : Z) (fuel : nat) (i : Z) (acc : list Z) : list Z :=
  match fuel with
  | O => acc
  | S fuel' =>
      if i =? 0 then acc
      else to_digits b fuel' (i / b) (i mod b :: acc)
  end.

Definition enough_fuel (i : Z) : nat := S (Z.to_nat (Z.log2 i)).

Definition int_to_digits (b : Z) (i : Z) : list Z :=
  to_digits b (enough_fuel i) i [].

(** A digit of base [b]; a numeral without a leading zero digit. *)
Definition digit (b d : Z) : Prop := 0 <= d < b.

Definition no_leading_zero (l : list Z) : Prop :=
  match l with
  | [] => True
  | d :: _ => d <> 0
  end.

(** ** Text helpers *)

(** The position of [c] in an alphabet, counted from [n]. *)
Fixpoint index_from (n : Z) (c : ascii) (alphabet : list ascii) : option Z :=
  match alphabet with
  | [] => None
  | a :: rest => if Ascii.eqb a c then Some n else index_from (n + 1) c rest
  end.

(** [v.lstrip(chars)], [p] telling the characters to strip *)
Fixpoint lstrip {A : Type} (p : A -> bool) (v : list A) : list A :=
  match v with
  | [] => []
  | a :: rest => if p a then lstrip p rest else v
  end.

(** Nothing is left to strip: the head, if any, fails [p]. *)
Definition head_fails {A : Type} (p : A -> bool) (v : list A) : Prop :=
  match v with
  | [] => True
  | a :: _ => p a = false
  end.

(** ** Base58 (Bitcoin alphabet), as the package [based58] computes it:
    leading zero bytes are leading [1]s, the rest is one number; any
    character outside the alphabet, whitespace included, is an error. *)

Module Base58.

Definition BITCOIN_ALPHABET : list ascii :=
  list_ascii_of_string
    "123456789ABCDEFGHJKLMNPQRSTUVWXYZabcdefghijkmnopqrstuvwxyz".

Definition alphabet_at (d : Z) : ascii :=
  nth (Z.to_nat d) BITCOIN_ALPHABET "1"%char.

Definition alphabet_index (c : ascii) : option Z :=
  index_from 0 c BITCOIN_ALPHABET.

Definition is_zero_byte (b : byte) : bool := Byte.eqb b x00.
Definition is_one_char (c : ascii) : bool := Ascii.eqb c "1"%char.

Definition b58encode_int (i : Z) : list ascii :=
  map alphabet_at (int_to_digits 58 i).

Definition b58encode (v : list byte) : list ascii :=
  let origlen := length v in
  let v' := lstrip is_zero_byte v in
  let newlen := length v' in
  let acc := from_digits 256 (map byte_to_Z v') in
  repeat "1"%char (origlen - newlen)%nat ++ b58encode_int acc.

(** [decimal = decimal * 58 + map[char]], an unknown character raising
    [ValueError]. *)
Fixpoint b58decode_int_from (decimal : Z) (v : list ascii) : result Z :=
  match v with
  | [] => Returns decimal
  | char :: rest =>
      match alphabet_index char with
      | Some d => b58decode_int_from (decimal * 58 + d) rest
      | None => Raises (ValueError "Invalid character")
      end
  end.

Definition b58decode_int (v : list ascii) : result Z :=
  b58decode_int_from 0 v.

Definition b58decode (v : list ascii) : result (list byte) :=
  let origlen := length v in
  let v' := lstrip is_one_char v in
  let newlen := length v' in
  acc ← b58decode_int v';
  Returns (repeat x00 (origlen - newlen)%nat
           ++ map byte_of_Z (int_to_digits 256 acc)).

End Base58.

(** ** [solana.publickey.PublicKey]

    A public key wraps the bytes it was built from, at most 32 of them:
    the constructor raises on more. [bytes(pk)] pads them on the left with
    zero bytes to 32; [str(pk)] is the base58 text of [bytes(pk)];
    [pk == other] compares [bytes(pk)] with [bytes(other)];
    [PublicKey(str)] parses base58 text and rejects anything that is not
    32 bytes long. *)

Module PublicKey.

Record t : Type := mk { key : list byte }.

Definition LENGTH : nat := 32.

Definition valid (pk : t) : Prop := length (key pk) = LENGTH.

(** The keys the constructor lets through. *)
Definition constructible (pk : t) : Prop := (length (key pk) <= LENGTH)%nat.

(** [bytes(pk)]: [self._key.rjust(LENGTH, b"\0")] *)
Definition to_bytes (pk : t) : list byte :=
  repeat x00 (LENGTH - length (key pk))%nat ++ key pk.

(** [pk == other] *)
Definition equal (pk other : t) : Prop := to_bytes pk = to_bytes other.

(** [str(pk)] *)
Definition to_str (pk : t) : string :=
  string_of_list_ascii (Base58.b58encode (to_bytes pk)).

(** [PublicKey(value)] for a [str] value *)
Definition of_str (value : string) : result t :=
  match Base58.b58decode (list_ascii_of_string value) with
  | Raises (ValueError _) => Raises (ValueError "invalid public key input:")
  | Raises e => Raises e
  | Returns k =>
      if decide (length k ≠ LENGTH)
      then Raises (ValueError "invalid public key input:")
      else Returns (mk k)
  end.

(** [PublicKey(value)] for a [bytes] value *)
Definition of_bytes (value : list byte) : result t :=
  if decide (LENGTH < length value)%nat
  then Raises (ValueError "invalid public key input:")
  else Returns (mk value).

End PublicKey.

(** ** [borsh_construct] layouts

    A construct parses a prefix of the byte stream and hands back the rest;
    reading past the end raises [StreamError]. *)

Module borsh.

Definition Construct (A : Type) : Type := list byte -> result (A * list byte).

(** [construct.Bytes(n)] *)
Definition Bytes (n : nat) : Construct (list byte) := fun stream =>
  if decide (length stream < n)%nat
  then Raises StreamError
  else Returns (take n stream, drop n stream).

(** [int.from_bytes(bs, 'little')] *)
Definition int_from_little (bs : list byte) : Z :=
  from_digits 256 (rev (map byte_to_Z bs)).

(** [borsh.U64], eight bytes, little-endian, unsigned *)
Definition U64 : Construct Z := fun stream =>
  '(bs, rest) ← Bytes 8 stream;
  Returns (int_from_little bs, rest).

(** [anchorpy.borsh_extension.BorshPubkey]: [Bytes(32)] adapted by
    [PublicKey] *)
Definition BorshPubkey : Construct PublicKey.t := fun stream =>
  '(bs, rest) ← Bytes 32 stream;
  pk ← PublicKey.of_bytes bs;
  Returns (pk, rest).

(** [layout.parse(data)]: bytes after the parsed value are ignored *)
Definition parse {A : Type} (layout : Construct A) (data : list byte) : result A :=
  '(a, _) ← layout data;
  Returns a.

End borsh.

(** ** The RPC connection

    [resp["result"]["value"]] of [get_account_info] is an account record or
    [None]; of [get_multiple_accounts], a list of such. A transport failure
    is an exception of the call. *)

Record AccountInfo : Type := {
  owner : string;
  data : list string
}.

Definition Commitment : Type := string.

Definition Address : Type := (PublicKey.t + string)%type.

Record AsyncClient : Type := {
  get_account_info :
    PublicKey.t -> option Commitment -> result (option AccountInfo);
  get_multiple_accounts :
    list Address -> option Commitment -> result (list (option AccountInfo))
}.

(** [xs[i]] on a list *)
Definition getitem {A : Type} (xs : list A) (i : nat) : result A :=
  match xs !! i with
  | Some x => Returns x
  | None => Raises IndexError
  end.

(** [info[field]] where [info] may be [None] *)
Definition subscript {A : Type} (info : option AccountInfo)
    (field : AccountInfo -> A) : result A :=
  match info with
  | Some i => Returns (field i)
  | None => Raises (TypeError "'NoneType' object is not subscriptable")
  end.

(** [for x in xs: state = body(state, x)], stopping at the first exception *)
Fixpoint for_each {S A : Type} (body : S -> A -> result S) (xs : list A)
    (state : S) : result S :=
  match xs with
  | [] => Returns state
  | x :: rest => state' ← body state x; for_each body rest state'
  end.

(** Constant of [anchorpy.coder.accounts]. *)
Definition ACCOUNT_DISCRIMINATOR_SIZE : nat := 8.

(** ** [accounts/counter.py] *)

Module Counter.

(** The dataclass [Counter] *)
Record t : Type := mk { authority : PublicKey.t; count : Z }.

(** [CounterJSON] *)
Record CounterJSON : Type := {
  json_authority : string;
  json_count : Z
}.

(** [b"\xff\xb0\x04\xf5\xbc\xfd|\x19"] *)
Definition discriminator : list byte :=
  [xff; xb0; x04; xf5; xbc; xfd; x7c; x19].

(** [borsh.CStruct("authority" / BorshPubkey, "count" / borsh.U64)] *)
Definition layout : borsh.Construct t := fun stream =>
  '(authority, stream) ← borsh.BorshPubkey stream;
  '(count, stream) ← borsh.U64 stream;
  Returns (mk authority count, stream).

Definition decode (data : list byte) : result t :=
  if decide (take ACCOUNT_DISCRIMINATOR_SIZE data ≠ discriminator)
  then Raises (AccountInvalidDiscriminator
                 "The discriminator for this account is invalid")
  else
    dec ← borsh.parse layout (drop ACCOUNT_DISCRIMINATOR_SIZE data);
    Returns (mk (authority dec) (count dec)).

(** [self == other] of the dataclass: field by field *)
Definition equal (self other : t) : Prop :=
  PublicKey.equal (authority self) (authority other)
  /\ count self = count other.

Definition to_json (self : t) : CounterJSON :=
  {| json_authority := PublicKey.to_str (authority self);
     json_count := count self |}.

Definition from_json (obj : CounterJSON) : result t :=
  authority ← PublicKey.of_str (json_authority obj);
  Returns (mk authority (json_count obj)).

Section Fetch.

(** [PROGRAM_ID] of [..program_id] and [base64.b64decode]. *)
Variable PROGRAM_ID : PublicKey.t.
Variable b64decode : string -> result (list byte).

Definition fetch (conn : AsyncClient) (address : PublicKey.t)
    (commitment : option Commitment) : result (option t) :=
  info ← get_account_info conn address commitment;
  match info with
  | None => Returns None
  | Some _ =>
      owner ← subscript info owner;
      if decide (owner ≠ PublicKey.to_str PROGRAM_ID)
      then Raises (ValueError "Account does not belong to this program")
      else
        data ← subscript info data;
        data0 ← getitem data 0;
        bytes_data ← b64decode data0;
        account ← decode bytes_data;
        Returns (Some account)
  end.

(** One round of the loop of [fetch_multiple]. The first [if] has no
    [continue]: after appending [None] control reaches
    [info["owner"]]. *)
Definition fetch_multiple_body (res : list (option t))
    (info : option AccountInfo) : result (list (option t)) :=
  let res := match info with
             | None => res ++ [None]
             | Some _ => res
             end in
  owner ← subscript info owner;
  if decide (owner ≠ PublicKey.to_str PROGRAM_ID)
  then Raises (ValueError "Account does not belong to this program")
  else
    data ← subscript info data;
    data0 ← getitem data 0;
    bytes_data ← b64decode data0;
    account ← decode bytes_data;
    Returns (res ++ [Some account]).

Definition fetch_multiple (conn : AsyncClient) (addresses : list Address)
    (commitment : option Commitment) : result (list (option t)) :=
  infos ← get_multiple_accounts conn addresses commitment;
  for_each fetch_multiple_body infos [].

End Fetch.

End Counter.

(** ** [errors/__init__.py] *)

Module errors.

(** [\w] on ASCII text: a letter, a digit or the underscore. Text is a
    sequence of 8-bit characters here, as in the rest of the development,
    and a character from 128 on counts as no word character; Python's
    [\w] also accepts the letters and digits of Unicode beyond ASCII, so
    a log line that holds one of those where a group is looked for lies
    outside this definition. The lines the runtime writes (base58
    addresses, hexadecimal codes) are ASCII. *)
Definition is_word (c : ascii) : bool :=
  let n := N_of_ascii c in
  ((48 <=? n) && (n <=? 57) || (65 <=? n) && (n <=? 90)
   || (97 <=? n) && (n <=? 122) || (n =? 95))%N.

(** The longest run of word characters at the head of [s], and the rest:
    what a greedy [\w+] takes. *)
Fixpoint span_word (s : list ascii) : list ascii * list ascii :=
  match s with
  | [] => ([], [])
  | c :: rest =>
      if is_word c
      then let '(run, tail) := span_word rest in (c :: run, tail)
      else ([], s)
  end.

(** Matching a literal piece of the pattern at the head of [s]. *)
Fixpoint literal (lit s : list ascii) : option (list ascii) :=
  match lit, s with
  | [], _ => Some s
  | a :: lit', c :: s' => if Ascii.eqb a c then literal lit' s' else None
  | _ :: _, [] => None
  end.

(** [error_re.match(logline)] for
    [error_re = re.compile("Program (\w+) failed: custom program error: (\w+)")],
    giving [groups()] of the match. The match is anchored at the start of
    the line only. Each literal piece that follows a group begins with a
    space, which is not a word character, so a group can only end where
    its run of word characters ends: the greedy match is the only one. *)
Definition error_re_match (logline : string) : option (string * string) :=
  s ← literal (list_ascii_of_string "Program ") (list_ascii_of_string logline);
  let '(program_id_raw, s) := span_word s in
  if decide (program_id_raw = []) then None else
  s ← literal (list_ascii_of_string " failed: custom program error: ") s;
  let '(code_raw, _) := span_word s in
  if decide (code_raw = []) then None else
  Some (string_of_list_ascii program_id_raw, string_of_list_ascii code_raw).

(** The pattern in the specification's words: the line begins
    [Program <address> failed: custom program error: <code>], where address
    and code are non-empty runs of word characters and the code runs up to
    the first character that is not one. *)
Definition word_text (s : string) : Prop :=
  s <> EmptyString /\ Forall (fun c => is_word c = true) (list_ascii_of_string s).

Definition matches_pattern (logline address code : string) : Prop :=
  exists tail,
    logline = "Program " +:+ address +:+ " failed: custom program error: "
                +:+ code +:+ tail
    /\ word_text address /\ word_text code
    /\ head_fails is_word (list_ascii_of_string tail).

(** A local variable is unbound ([None]) until its first assignment. *)
Definition local (A : Type) : Type := option A.

Definition read_local {A : Type} (name : string) (v : local A) : result A :=
  match v with
  | Some a => Returns a
  | None => Raises (UnboundLocalError name)
  end.

(** [f(arg)] where [f] is a [str]: strings are not callable. *)
Definition call_str (f : string) (arg : Z) : result Empty_set :=
  Raises (TypeError "'str' object is not callable").

(** [int(x)] on the value of such a call. *)
Definition int_of (x : Empty_set) : result Z :=
  match x with end.

(** [try: a = c  except ValueError: h], followed by [k a] *)
Definition try_except_ValueError {A B : Type} (c : result A)
    (h : result B) (k : A -> result B) : result B :=
  match c with
  | Returns a => k a
  | Raises (ValueError _) => h
  | Raises e => Raises e
  end.

(** The loop
    [for logline in error["logs"]: first_match = error_re.match(logline);
     if first_match is not None: break],
    threading the local [first_match]. *)
Fixpoint scan_logs (logs : list string)
    (first_match : local (option (string * string)))
    : local (option (string * string)) :=
  match logs with
  | [] => first_match
  | logline :: rest =>
      let first_match := error_re_match logline in
      match first_match with
      | Some _ => Some first_match
      | None => scan_logs rest (Some first_match)
      end
  end.

Section WithProgram.

(** [PROGRAM_ID] of [.program_id]; the error classes and the lookup
    functions of the sibling modules [custom] and [anchor]. *)
Variable PROGRAM_ID : PublicKey.t.
Variables CustomError AnchorError : Type.
Variable custom_from_code : Z -> option CustomError.
Variable anchor_from_code : Z -> option AnchorError.

(** [Union[custom.CustomError, anchor.AnchorError, None]] is
    [option (CustomError + AnchorError)]. *)
Definition from_code (code : Z) : option (CustomError + AnchorError) :=
  if 6000 <=? code
  then inl <$> custom_from_code code
  else inr <$> anchor_from_code code.

Definition from_tx_error (error : gmap string (list string))
    : result (option (CustomError + AnchorError)) :=
  match error !! "logs" with
  | None => Returns None
  | Some logs =>
      first_match ← read_local "first_match" (scan_logs logs None);
      match first_match with
      | None => Returns None
      | Some (program_id_raw, code_raw) =>
          if decide (program_id_raw ≠ PublicKey.to_str PROGRAM_ID)
          then Returns None
          else
            try_except_ValueError
              (x ← call_str code_raw 16; int_of x)
              (Returns None)
              (fun error_code => Returns (from_code error_code))
      end
  end.

End WithProgram.

End errors.

(** ** [clientgen/instructions.py]

    The generator builds a tree of [genpy] nodes and the helper nodes of
    [anchorpy.clientgen.utils]; that tree is the model of the generated
    module. Rendering the tree to text is [genpy]'s, and is left out. *)

Module instructions.

(** [anchorpy.idl._IdlAccountItem]: [_IdlAccount] or [_IdlAccounts] *)
Inductive IdlAccountItem : Type :=
| IdlAccount (name : string) (is_mut is_signer : bool)
| IdlAccounts (name : string) (accounts : list IdlAccountItem).

Definition item_name (acc : IdlAccountItem) : string :=
  match acc with
  | IdlAccount name _ _ => name
  | IdlAccounts name _ => name
  end.

Inductive typed_param : Type :=
| TypedParam (name type : string).

Inductive str_dict_entry : Type :=
| StrDictEntry (key val : string).

(** Right-hand sides handed to [Assign]: source text, a [utils.List] of
    element texts, or a [bytes] value. *)
Inductive rvalue : Type :=
| Text (s : string)
| PyList (elements : list string)
| BytesValue (b : list byte).

Inductive node : Type :=
| Import (module : string)
| FromImport (module : string) (members : list string)
| ImportAs (module alias : string)
| Assign (lvalue : string) (rhs : rvalue)
| TypedDict (name : string) (params : list typed_param)
| Function (name : string) (params : list typed_param) (body : list node)
           (return_type : string)
| Return (value : string).

(** [str(b)] for a [bool] inside an f-string *)
Definition str_bool (b : bool) : string := if b then "True" else "False".

(** The one-character string holding a double quote. *)
Definition dquote : string := String "034"%char EmptyString.

(** [f'["{key}"]'] *)
Definition nested_key (key : string) : string :=
  "[" +:+ dquote +:+ key +:+ dquote +:+ "]".

(** [recurse_accounts], by recursion on the account items; the [for] loop
    over a group's members is the inner [flat_map]. *)
Fixpoint recurse_account (acc : IdlAccountItem) (nested_names : list string)
    : list string :=
  let names := nested_names ++ [item_name acc] in
  match acc with
  | IdlAccounts _ accounts =>
      flat_map (fun a => recurse_account a names) accounts
  | IdlAccount _ is_mut is_signer =>
      let nested_keys := map nested_key names in
      let dict_accessor := String.concat EmptyString nested_keys in
      [ "AccountMeta(pubkey=accounts" +:+ dict_accessor +:+ ", "
        +:+ "is_signer=" +:+ str_bool is_signer +:+ ", "
        +:+ "is_writable=" +:+ str_bool is_mut +:+ ")" ]
  end.

Definition recurse_accounts (accs : list IdlAccountItem)
    (nested_names : list string) : list string :=
  flat_map (fun acc => recurse_account acc nested_names) accs.

(** Observers of generated nodes. *)
Definition is_typed_dict (n : node) : Prop :=
  match n with
  | TypedDict _ _ => True
  | _ => False
  end.

Definition assigns (lvalue : string) (n : node) : Prop :=
  match n with
  | Assign l _ => l = lvalue
  | _ => False
  end.

(** *** The flattening in the specification's words

    A depth-first walk in declaration order that yields, for every leaf,
    its path from the root with its two flags, and nothing for a group. *)

Record account_meta : Type := {
  meta_path : list string;
  meta_is_signer : bool;
  meta_is_writable : bool
}.

Fixpoint flatten_item (prefix : list string) (acc : IdlAccountItem)
    : list account_meta :=
  match acc with
  | IdlAccount name is_mut is_signer =>
      [ {| meta_path := prefix ++ [name];
           meta_is_signer := is_signer;
           meta_is_writable := is_mut |} ]
  | IdlAccounts name accounts =>
      flat_map (flatten_item (prefix ++ [name])) accounts
  end.

Definition flatten_tree (prefix : list string) (accs : list IdlAccountItem)
    : list account_meta :=
  flat_map (flatten_item prefix) accs.

Fixpoint count_leaves (acc : IdlAccountItem) : nat :=
  match acc with
  | IdlAccount _ _ _ => 1
  | IdlAccounts _ accounts => list_sum (map count_leaves accounts)
  end.

Definition dotted (path : list string) : string := String.concat "." path.

(** The Python text that stands for a leaf, written out on its own: the
    [AccountMeta] call whose public key is read from [accounts] by one
    subscript per name of the path, outermost first, and whose flags are
    the literals [True] and [False]. *)
Definition quote_mark : string := String "034"%char EmptyString.

Fixpoint accessor (path : list string) (rest : string) : string :=
  match path with
  | [] => rest
  | name :: path' =>
      "[" +:+ quote_mark +:+ name +:+ quote_mark +:+ "]" +:+ accessor path' rest
  end.

Definition python_bool (b : bool) : string :=
  match b with
  | true => "True"
  | false => "False"
  end.

Definition meta_text (m : account_meta) : string :=
  "AccountMeta(pubkey=accounts"
    +:+ accessor (meta_path m)
          (", is_signer=" +:+ python_bool (meta_is_signer m)
           +:+ ", is_writable=" +:+ python_bool (meta_is_writable m) +:+ ")").

(** A name that holds no double quote, as every identifier is. *)
Definition plain_name (name : string) : Prop :=
  ~ In "034"%char (list_ascii_of_string name).

(** Groups and leaves; a group is shallow when it holds leaves only; the
    groups of an item are the item itself, when it is one, and the groups
    of its members, at any depth. *)
Definition is_group (acc : IdlAccountItem) : bool :=
  match acc with
  | IdlAccount _ _ _ => false
  | IdlAccounts _ _ => true
  end.

Definition shallow (acc : IdlAccountItem) : Prop :=
  match acc with
  | IdlAccount _ _ _ => True
  | IdlAccounts _ members => Forall (fun m => is_group m = false) members
  end.

Fixpoint groups_of (acc : IdlAccountItem)
    : list (string * list IdlAccountItem) :=
  match acc with
  | IdlAccount _ _ _ => []
  | IdlAccounts name members => (name, members) :: flat_map groups_of members
  end.

(** *** Reading the generated interfaces

    What the names of a generated module stand for once it has run: a
    name is bound to the last class defined under it, and a key of a
    [TypedDict] carries the annotation written last for it. *)
Fixpoint interface_of (dicts : list node) (iface : string)
    : option (list typed_param) :=
  match dicts with
  | [] => None
  | n :: rest =>
      match interface_of rest iface, n with
      | Some params, _ => Some params
      | None, TypedDict name params =>
          if decide (name = iface) then Some params else None
      | None, _ => None
      end
  end.

Fixpoint annotation (params : list typed_param) (key : string)
    : option string :=
  match params with
  | [] => None
  | TypedParam name type :: rest =>
      match annotation rest key with
      | Some found => Some found
      | None => if decide (name = key) then Some type else None
      end
  end.

(** A path of keys is addressable from the interface [iface] when each
    key is declared by the interface reached so far: every key but the
    last is annotated with an interface, from which the rest of the path
    is addressable, and the last is annotated [PublicKey]. *)
Fixpoint addressable (dicts : list node) (iface : string)
    (path : list string) : Prop :=
  match path with
  | [] => False
  | key :: rest =>
      exists params type,
        interface_of dicts iface = Some params
        /\ annotation params key = Some type
        /\ match rest with
           | [] => type = "PublicKey"
           | _ :: _ => addressable dicts type rest
           end
  end.

(** No two members of the root, or of one group, share a name. *)
Definition distinct_siblings (accs : list IdlAccountItem) : Prop :=
  NoDup (map item_name accs)
  /\ forall g, In g (flat_map groups_of accs) -> NoDup (map item_name g.2).

Section Generator.

(** The IDL types of [anchorpy.idl], opaque here, and the helpers the
    generator imports: [pyheck.upper_camel],
    [anchorpy.coder.common._sighash], the three functions of
    [anchorpy.clientgen.common], the text of a [utils.StrDict], and
    [pathlib]'s [/] and [with_suffix]. *)
Variable IdlType : Type.
Variable IdlTypeDef : Type.

Record IdlField : Type := {
  field_name : string;
  field_type : IdlType
}.

Record IdlInstruction : Type := {
  ix_name : string;
  ix_accounts : list IdlAccountItem;
  ix_args : list IdlField
}.

Record Idl : Type := {
  idl_instructions : list IdlInstruction;
  idl_types : list IdlTypeDef
}.

Definition Path : Type := string.

Variable upper_camel : string -> string.
Variable _sighash : string -> list byte.
Variable _py_type_from_idl : Idl -> IdlType -> string.
Variable _layout_for_type : IdlType -> string -> string.
Variable _field_to_encodable : Idl -> IdlField -> string -> string -> string.
Variable str_StrDict : list str_dict_entry -> string.
Variable path_div : Path -> string -> Path.
Variable with_suffix : Path -> string -> Path.

Definition _args_interface_name (ix_name : string) : string :=
  upper_camel ix_name +:+ "Args".

Definition _accounts_interface_name (ix_name : string) : string :=
  upper_camel ix_name +:+ "Accounts".

(** One round of the loop of [gen_accounts], on the pair
    [(params, extra_typeddicts_to_use)]; the recursive call on a group's
    members is the inner [fold_left], started from no params and the
    current extras. *)
Fixpoint gen_accounts_round (state : list typed_param * list node)
    (acc : IdlAccountItem) : list typed_param * list node :=
  let '(params, extra_typeddicts_to_use) := state in
  match acc with
  | IdlAccounts name accounts =>
      let nested_acc_name := upper_camel name +:+ "Nested" in
      let params := params ++ [TypedParam name nested_acc_name] in
      let '(nested_params, nested_extra) :=
        fold_left gen_accounts_round accounts ([], extra_typeddicts_to_use) in
      (params,
       extra_typeddicts_to_use
         ++ (TypedDict nested_acc_name nested_params :: nested_extra))
  | IdlAccount name _ _ =>
      (params ++ [TypedParam name "PublicKey"], extra_typeddicts_to_use)
  end.

Definition gen_accounts (name : string) (idl_accs : list IdlAccountItem)
    (extra_typeddicts : option (list node)) : list node :=
  let extra_typeddicts_to_use := default [] extra_typeddicts in
  let '(params, extra_typeddicts_to_use) :=
    fold_left gen_accounts_round idl_accs ([], extra_typeddicts_to_use) in
  TypedDict name params :: extra_typeddicts_to_use.

(** The body of the loop of [gen_instructions_code]: the module
    generated for one instruction. *)
Definition gen_instruction_contents (idl : Idl) (imports : list node)
    (ix : IdlInstruction) : list node :=
  let accounts_interface_name := _accounts_interface_name (ix_name ix) in
  let args_interface_params :=
    map (fun arg => TypedParam (field_name arg)
                      (_py_type_from_idl idl (field_type arg)))
        (ix_args ix) in
  let layout_items :=
    map (fun arg => _layout_for_type (field_type arg) (field_name arg))
        (ix_args ix) in
  let encoded_args_entries :=
    map (fun arg => StrDictEntry (field_name arg)
                      (_field_to_encodable idl arg ("args[" +:+ dquote)
                         (dquote +:+ "]")))
        (ix_args ix) in
  let '(args_interface_container, layout_assignment_container,
        args_container, accounts_container) :=
    match ix_args ix with
    | _ :: _ =>
        let args_interface_name := _args_interface_name (ix_name ix) in
        ([TypedDict args_interface_name args_interface_params],
         [Assign "layout"
            (Text ("borsh.CStruct(" +:+ String.concat "," layout_items
                   +:+ ")"))],
         [TypedParam "args" args_interface_name],
         [TypedParam "accounts" accounts_interface_name])
    | [] => ([], [], [], [])
    end in
  let accounts := gen_accounts accounts_interface_name (ix_accounts ix) None in
  let keys_assignment :=
    Assign "keys" (PyList (recurse_accounts (ix_accounts ix) [])) in
  let identifier_assignment :=
    Assign "identifier" (BytesValue (_sighash (ix_name ix))) in
  let encoded_args_assignment :=
    Assign "encoded_args"
      (Text ("layout.build(" +:+ str_StrDict encoded_args_entries +:+ ")")) in
  let data_assignment := Assign "data" (Text "identifier + encoded_args") in
  let returning := Return "TransactionInstruction(data, keys, PROGRAM_ID)" in
  let ix_fn :=
    Function (ix_name ix)
      (args_container ++ accounts_container)
      [keys_assignment; identifier_assignment; encoded_args_assignment;
       data_assignment; returning]
      "TransactionInstruction" in
  imports ++ args_interface_container ++ layout_assignment_container
    ++ accounts ++ [ix_fn].

Definition gen_instructions_code (idl : Idl) (out : Path)
    : gmap Path (list node) :=
  let types_import :=
    match idl_types idl with
    | _ :: _ => [FromImport ".." ["types"]]
    | [] => []
    end in
  let imports :=
    [Import "typing";
     FromImport "solana.publickey" ["PublicKey"];
     FromImport "solana.transaction" ["TransactionInstruction"; "AccountMeta"];
     ImportAs "borsh_construct" "borsh"]
    ++ types_import
    ++ [FromImport "..program_id" ["PROGRAM_ID"]] in
  fold_left
    (fun result ix =>
       let filename := with_suffix (path_div out (ix_name ix)) ".py" in
       <[filename := gen_instruction_contents idl imports ix]> result)
    (idl_instructions idl) ∅.

(** [gen_index_code]: one [FromImport] per instruction, importing the
    args interface when there are args and the accounts interface when
    there are accounts. The collection is left unrendered. *)
Definition gen_index_code (idl : Idl) : list node :=
  map (fun ix =>
         let import_members :=
           match ix_args ix with
           | _ :: _ => [_args_interface_name (ix_name ix)]
           | [] => []
           end
           ++ match ix_accounts ix with
              | _ :: _ => [_accounts_interface_name (ix_name ix)]
              | [] => []
              end in
         FromImport ("." +:+ ix_name ix) import_members)
      (idl_instructions idl).

(** The parameter that stands for an account item in the interface of its
    parent, and the interface of a group. *)
Definition account_param (acc : IdlAccountItem) : typed_param :=
  match acc with
  | IdlAccount name _ _ => TypedParam name "PublicKey"
  | IdlAccounts name _ => TypedParam name (upper_camel name +:+ "Nested")
  end.

Definition group_dict (group : string * list IdlAccountItem) : node :=
  TypedDict (upper_camel group.1 +:+ "Nested") (map account_param group.2).

(** What one round of [gen_accounts] does to the interfaces gathered so
    far: none is lost, and every group of the item has its own among
    them. *)
Definition round_keeps_and_adds (acc : IdlAccountItem) : Prop :=
  forall state,
    incl state.2 (gen_accounts_round state acc).2
    /\ forall g, In g (groups_of acc) ->
                 In (group_dict g) (gen_accounts_round state acc).2.

(** The names bound by the interfaces of an account tree: that of the
    root and the [...Nested] one of every group, at any depth. *)
Definition interface_names (name : string) (accs : list IdlAccountItem)
    : list string :=
  name :: map (fun g => upper_camel g.1 +:+ "Nested")
            (flat_map groups_of accs).

(** The file [gen_instructions_code] names for an instruction. *)
Definition instruction_filename (out : Path) (ix : IdlInstruction) : Path :=
  with_suffix (path_div out (ix_name ix)) ".py".

(** The import block at the head of every generated module. *)
Definition module_imports (idl : Idl) : list node :=
  [Import "typing";
   FromImport "solana.publickey" ["PublicKey"];
   FromImport "solana.transaction" ["TransactionInstruction"; "AccountMeta"];
   ImportAs "borsh_construct" "borsh"]
  ++ match idl_types idl with
     | _ :: _ => [FromImport ".." ["types"]]
     | [] => []
     end
  ++ [FromImport "..program_id" ["PROGRAM_ID"]].

End Generator.

Arguments field_name {IdlType} _.
Arguments field_type {IdlType} _.
Arguments ix_name {IdlType} _.
Arguments ix_accounts {IdlType} _.
Arguments ix_args {IdlType} _.
Arguments idl_instructions {IdlType IdlTypeDef} _.
Arguments idl_types {IdlType IdlTypeDef} _.

End instructions.

(** ** Strict base64

    A decoder for canonical base64 text (standard alphabet, [=] padding);
    on such text it yields the bytes [base64.b64decode] yields. It stands
    in for [b64decode] in the examples. *)

Module Base64.

Definition ALPHABET : list ascii :=
  list_ascii_of_string
    "ABCDEFGHIJKLMNOPQRSTUVWXYZabcdefghijklmnopqrstuvwxyz0123456789+/".

Definition sextet (c : ascii) : result Z :=
  match index_from 0 c ALPHABET with
  | Some d => Returns d
  | None => Raises BinasciiError
  end.

Definition is_pad (c : ascii) : bool := Ascii.eqb c "="%char.

Fixpoint decode_quads (s : list ascii) : result (list byte) :=
  match s with
  | [] => Returns []
  | [a; b; c; d] =>
      a ← sextet a; b ← sextet b;
      if is_pad c && is_pad d then
        Returns [byte_of_Z ((a * 64 + b) / 16)]
      else
        c ← sextet c;
        if is_pad d then
          let n := (a * 64 + b) * 64 + c in
          Returns [byte_of_Z (n / 1024); byte_of_Z (n / 4 mod 256)]
        else
          d ← sextet d;
          let n := ((a * 64 + b) * 64 + c) * 64 + d in
          Returns [byte_of_Z (n / 65536); byte_of_Z (n / 256 mod 256);
                   byte_of_Z (n mod 256)]
  | a :: b :: c :: d :: rest =>
      a ← sextet a; b ← sextet b; c ← sextet c; d ← sextet d;
      let n := ((a * 64 + b) * 64 + c) * 64 + d in
      tail ← decode_quads rest;
      Returns (byte_of_Z (n / 65536) :: byte_of_Z (n / 256 mod 256)
               :: byte_of_Z (n mod 256) :: tail)
  | _ => Raises BinasciiError
  end.

Definition b64decode (s : string) : result (list byte) :=
  decode_quads (list_ascii_of_string s).

End Base64.

(** ** Example data *)

Module Samples.

Import instructions.

(** A program id, the all-zero key of the system program, and a counter
    account: discriminator, authority, count [7]. *)
Definition program_id : PublicKey.t :=
  PublicKey.mk (map (fun n => byte_of_Z (Z.of_nat n)) (seq 101 32)).

Definition system_program : PublicKey.t := PublicKey.mk (repeat x00 32).

Definition authority : PublicKey.t :=
  PublicKey.mk (map (fun n => byte_of_Z (Z.of_nat n)) (seq 1 32)).

Definition counter : Counter.t := Counter.mk authority 7.

(** Its JSON form, and a record on a key of three bytes. *)
Definition counter_json : Counter.CounterJSON :=
  {| Counter.json_authority := "4wBqpZM9xaSheZzJSMawUKKwhdpChKbZ5eu5ky4Vigw";
     Counter.json_count := 7 |}.

Definition short_key : PublicKey.t := PublicKey.mk [x01; x02; x03].

Definition short_counter : Counter.t := Counter.mk short_key 5.

Definition counter_bytes : list byte :=
  Counter.discriminator ++ PublicKey.key authority
    ++ [x07; x00; x00; x00; x00; x00; x00; x00].

(** [counter_bytes] in base64, as the RPC node sends them. *)
Definition counter_base64 : string :=
  "/7AE9bz9fBkBAgMEBQYHCAkKCwwNDg8QERITFBUWFxgZGhscHR4fIAcAAAAAAAAA".

Definition counter_info (owner : PublicKey.t) : AccountInfo :=
  {| owner := PublicKey.to_str owner; data := [counter_base64; "base64"] |}.

(** A connection that knows one account, at [authority]'s address, held by
    the system program; every other address is vacant. *)
Definition lookup_address (a : Address) : option AccountInfo :=
  match a with
  | inl pk =>
      if decide (PublicKey.key pk = PublicKey.key authority)
      then Some (counter_info system_program) else None
  | inr _ => None
  end.

Definition foreign_conn : AsyncClient :=
  {| get_account_info := fun address _ =>
       Returns (lookup_address (inl address));
     get_multiple_accounts := fun addresses _ =>
       Returns (map lookup_address addresses) |}.

(** A connection on which that account is held by [program_id]. *)
Definition lookup_own (a : Address) : option AccountInfo :=
  match a with
  | inl pk =>
      if decide (PublicKey.key pk = PublicKey.key authority)
      then Some (counter_info program_id) else None
  | inr _ => None
  end.

Definition own_conn : AsyncClient :=
  {| get_account_info := fun address _ =>
       Returns (lookup_own (inl address));
     get_multiple_accounts := fun addresses _ =>
       Returns (map lookup_own addresses) |}.

(** The log line of a failure of [program_id] with code text [code]. *)
Definition failure_log (code : string) : string :=
  "Program " +:+ PublicKey.to_str program_id
    +:+ " failed: custom program error: " +:+ code.

(** Error tables with one entry each. *)
Definition custom_from_code (code : Z) : option string :=
  if code =? 6000 then Some "TileOutOfBounds" else None.

Definition anchor_from_code (code : Z) : option string :=
  if code =? 100 then Some "InstructionMissing" else None.

(** The account tree [{poolAuthority, pool: {vaultA, vaultB}}]. *)
Definition pool_accounts : list IdlAccountItem :=
  [ IdlAccount "poolAuthority" false true;
    IdlAccounts "pool"
      [ IdlAccount "vaultA" true false; IdlAccount "vaultB" true false ] ].

(** An instruction without arguments: [increment] of [basic_2], in an
    IDL whose types are left opaque. *)
Definition increment : IdlInstruction unit :=
  {| ix_name := "increment";
     ix_accounts := [ IdlAccount "counter" true false;
                      IdlAccount "authority" false true ];
     ix_args := [] |}.

Definition basic_2 : Idl unit unit :=
  {| idl_instructions := [increment]; idl_types := [] |}.

(** Stand-ins for the imported helpers, right on the names used here:
    [upper_camel] of one lowercase word capitalises it, and the sighash
    of [increment] is the first eight bytes of
    [sha256("global:increment")]. *)
Definition upper_camel (s : string) : string :=
  match s with
  | EmptyString => EmptyString
  | String c rest =>
      let n := N_of_ascii c in
      String (if ((97 <=? n) && (n <=? 122))%N
              then ascii_of_N (n - 32) else c) rest
  end.

Definition sighash (name : string) : list byte :=
  [x0b; x12; x68; x09; x68; xae; x3b; x21].

Definition py_type_from_idl (idl : Idl unit unit) (ty : unit) : string := "int".

Definition layout_for_type (ty : unit) (name : string) : string :=
  dquote +:+ name +:+ dquote +:+ " / borsh.U64".

Definition field_to_encodable (idl : Idl unit unit) (field : IdlField unit)
    (val_prefix val_suffix : string) : string :=
  val_prefix +:+ field_name field +:+ val_suffix.

Definition str_StrDict (entries : list str_dict_entry) : string :=
  "{" +:+ String.concat ","
            (map (fun '(StrDictEntry key val) =>
                    dquote +:+ key +:+ dquote +:+ ":" +:+ val) entries)
      +:+ "}".

Definition path_div (dir : Path) (name : string) : Path :=
  dir +:+ "/" +:+ name.

Definition with_suffix (path : Path) (suffix : string) : Path :=
  path +:+ suffix.

(** Two sibling groups of leaves around a leaf. *)
Definition two_pools : list IdlAccountItem :=
  [ IdlAccounts "poolA" [ IdlAccount "vault" true false ];
    IdlAccount "payer" true true;
    IdlAccounts "poolB" [ IdlAccount "vault" true false ] ].

(** A connection with the counter account at two addresses: at
    [authority]'s held by [program_id], at [system_program]'s held by the
    system program. *)
Definition lookup_mixed (a : Address) : option AccountInfo :=
  match a with
  | inl pk =>
      if decide (PublicKey.key pk = PublicKey.key authority)
      then Some (counter_info program_id)
      else if decide (PublicKey.key pk = PublicKey.key system_program)
      then Some (counter_info system_program)
      else None
  | inr _ => None
  end.

Definition mixed_conn : AsyncClient :=
  {| get_account_info := fun address _ =>
       Returns (lookup_mixed (inl address));
     get_multiple_accounts := fun addresses _ =>
       Returns (map lookup_mixed addresses) |}.

(** Two groups named [a], one inside [b], with different members. *)
Definition clashing_accounts : list IdlAccountItem :=
  [ IdlAccounts "a" [ IdlAccount "x" true false ];
    IdlAccounts "b" [ IdlAccounts "a" [ IdlAccount "y" true false ] ] ].

(** Two instructions under one name, the first with an argument, the
    second without; and an IDL of two instructions under two names. *)
Definition dup_with_args : IdlInstruction unit :=
  {| ix_name := "dup";
     ix_accounts := [ IdlAccount "counter" true false ];
     ix_args := [ {| field_name := "data"; field_type := tt |} ] |}.

Definition dup_plain : IdlInstruction unit :=
  {| ix_name := "dup";
     ix_accounts := [ IdlAccount "counter" true false ];
     ix_args := [] |}.

Definition dup_idl : Idl unit unit :=
  {| idl_instructions := [dup_with_args; dup_plain]; idl_types := [] |}.

Definition create : IdlInstruction unit :=
  {| ix_name := "create";
     ix_accounts := [ IdlAccount "counter" true false;
                      IdlAccount "user" true true ];
     ix_args := [ {| field_name := "authority"; field_type := tt |} ] |}.

Definition basic_2_full : Idl unit unit :=
  {| idl_instructions := [create; increment]; idl_types := [] |}.

(** A JSON form whose authority text ends in a newline. *)
Definition counter_json_newline : Counter.CounterJSON :=
  {| Counter.json_authority :=
       PublicKey.to_str authority +:+ String "010"%char EmptyString;
     Counter.json_count := 7 |}.

End Samples.

(** ** Predicates of the statements *)

(** The connection that reports [info] at every address. *)
Definition answering (info : option AccountInfo) : AsyncClient :=
  {| get_account_info := fun _ _ => Returns info;
     get_multiple_accounts := fun addresses _ =>
       Returns (map (fun _ => info) addresses) |}.

(** The exception an element of a response stands for: the [TypeError]
    of subscripting [None] when it is absent, the exception [fetch] raises
    for it when it is an account. *)
Definition fails_with (PROGRAM_ID : PublicKey.t)
    (b64decode : string -> result (list byte))
    (commitment : option Commitment)
    (bad : option AccountInfo) (e : exn) : Prop :=
  match bad with
  | None => e = TypeError "'NoneType' object is not subscriptable"
  | Some info =>
      forall address,
        Counter.fetch PROGRAM_ID b64decode (answering (Some info)) address
          commitment
        = Raises e
  end.

(** The account [info] is one [fetch] accepts and turns into [account]: it
    is owned by the program, and the first entry of its data is base64 text
    of bytes that decode to [account]. *)
Definition yields (PROGRAM_ID : PublicKey.t)
    (b64decode : string -> result (list byte))
    (info : AccountInfo) (account : Counter.t) : Prop :=
  owner info = PublicKey.to_str PROGRAM_ID
  /\ exists text bytes_data,
       data info !! 0%nat = Some text
       /\ b64decode text = Returns bytes_data
       /\ Counter.decode bytes_data = Returns account.

(** * Theorems *)

(** ** Positional numerals *)

Section Numerals.
Variable b : Z.
Hypothesis b_ge_2 : 2 <= b.

Lemma from_digits_snoc l d :
  from_digits b (l ++ [d]) = from_digits b l * b + d.
Proof. unfold from_digits. now rewrite fold_left_app. Qed.

Lemma to_digits_acc fuel : forall i acc,
  to_digits b fuel i acc = to_digits b fuel i [] ++ acc.
Proof.
  induction fuel as [|fuel IH]; intros i acc; simpl; [reflexivity|].
  destruct (i =? 0); [reflexivity|].
  rewrite (IH _ (_ :: acc)), (IH _ [_]).
  now rewrite <- app_assoc.
Qed.

Lemma to_digits_step fuel i :
  i <> 0 ->
  to_digits b (S fuel) i [] = to_digits b fuel (i / b) [] ++ [i mod b].
Proof.
  intros Hi. simpl. apply Z.eqb_neq in Hi. rewrite Hi.
  apply to_digits_acc.
Qed.

Lemma quotient_bound fuel i :
  0 <= i < 2 ^ Z.of_nat (S fuel) -> 0 <= i / b < 2 ^ Z.of_nat fuel.
Proof.
  intros [Hlo Hhi].
  rewrite Nat2Z.inj_succ, Z.pow_succ_r in Hhi by lia.
  split; [apply Z.div_pos; lia|].
  apply Z.div_lt_upper_bound; nia.
Qed.

Lemma from_to_digits fuel : forall i,
  0 <= i < 2 ^ Z.of_nat fuel ->
  from_digits b (to_digits b fuel i []) = i.
Proof.
  induction fuel as [|fuel IH]; intros i Hi.
  - simpl in *. assert (i = 0) by lia. now subst.
  - destruct (Z.eq_dec i 0) as [->|Hne]; [reflexivity|].
    rewrite to_digits_step, from_digits_snoc by assumption.
    rewrite IH by now apply quotient_bound.
    rewrite Z.mul_comm. symmetry. apply Z.div_mod. lia.
Qed.

Lemma to_digits_range fuel : forall i,
  0 <= i -> Forall (digit b) (to_digits b fuel i []).
Proof.
  induction fuel as [|fuel IH]; intros i Hi; [constructor|].
  destruct (Z.eq_dec i 0) as [->|Hne]; [constructor|].
  rewrite to_digits_step by assumption.
  apply Forall_app; split.
  - apply IH, Z.div_pos; lia.
  - constructor; [|constructor]. apply Z.mod_pos_bound. lia.
Qed.

Lemma no_leading_zero_snoc l d :
  no_leading_zero l -> l <> [] -> no_leading_zero (l ++ [d]).
Proof. destruct l; simpl; congruence. Qed.

Lemma to_digits_nonempty fuel i :
  0 < i < 2 ^ Z.of_nat fuel -> to_digits b fuel i [] <> [].
Proof.
  intros Hi. destruct fuel as [|fuel]; [simpl in Hi; lia|].
  rewrite to_digits_step by lia.
  now destruct (to_digits b fuel (i / b) []).
Qed.

Lemma to_digits_no_leading_zero fuel : forall i,
  0 <= i < 2 ^ Z.of_nat fuel -> no_leading_zero (to_digits b fuel i []).
Proof.
  induction fuel as [|fuel IH]; intros i Hi; [exact I|].
  destruct (Z.eq_dec i 0) as [->|Hne]; [exact I|].
  rewrite to_digits_step by assumption.
  pose proof (quotient_bound fuel i Hi) as Hq.
  destruct (Z.eq_dec (i / b) 0) as [Hz|Hnz].
  - rewrite Hz. replace (to_digits b fuel 0 []) with (@nil Z) by now destruct fuel.
    simpl. rewrite Z.mod_small; [assumption|].
    apply Z.div_small_iff in Hz; lia.
  - apply no_leading_zero_snoc; [now apply IH|].
    apply to_digits_nonempty. lia.
Qed.

Lemma from_digits_nonneg l : Forall (digit b) l -> 0 <= from_digits b l.
Proof.
  induction l as [|d l IH] using rev_ind; intros Hl; [reflexivity|].
  apply Forall_app in Hl as [Hl Hd]. inversion Hd as [|? ? [? ?] _]; subst.
  rewrite from_digits_snoc. specialize (IH Hl). nia.
Qed.

Lemma from_digits_pos l :
  Forall (digit b) l -> no_leading_zero l -> l <> [] -> 0 < from_digits b l.
Proof.
  induction l as [|d l IH] using rev_ind; intros Hl Hz Hne; [congruence|].
  apply Forall_app in Hl as [Hl Hd]. inversion Hd as [|? ? [? ?] _]; subst.
  rewrite from_digits_snoc.
  destruct l as [|d' l'].
  - simpl in *. unfold from_digits. simpl. lia.
  - assert (0 < from_digits b (d' :: l')) by (apply IH; [assumption|exact Hz|discriminate]).
    nia.
Qed.

Lemma to_from_digits l : forall fuel,
  Forall (digit b) l -> no_leading_zero l ->
  from_digits b l < 2 ^ Z.of_nat fuel ->
  to_digits b fuel (from_digits b l) [] = l.
Proof.
  induction l as [|d l IH] using rev_ind; intros fuel Hl Hz Hlt.
  - now destruct fuel.
  - apply Forall_app in Hl as [Hl Hd]. inversion Hd as [|? ? Hdr _]; subst.
    unfold digit in Hdr.
    assert (Hnz : no_leading_zero l) by (destruct l; [exact I|exact Hz]).
    pose proof (from_digits_nonneg l Hl) as Hnn.
    rewrite from_digits_snoc in *.
    assert (Hpos : 0 < from_digits b l * b + d).
    { destruct l as [|d' l']; [simpl in Hz; unfold from_digits; simpl; lia|].
      assert (0 < from_digits b (d' :: l')) by (apply from_digits_pos; [assumption|exact Hz|discriminate]).
      nia. }
    destruct fuel as [|fuel]; [simpl in Hlt; lia|].
    rewrite to_digits_step by lia.
    assert (Hdiv : (from_digits b l * b + d) / b = from_digits b l).
    { rewrite Z.div_add_l by lia. rewrite Z.div_small by lia. lia. }
    assert (Hmod : (from_digits b l * b + d) mod b = d).
    { rewrite Z.add_comm, Z.mod_add by lia. apply Z.mod_small; lia. }
    rewrite Hdiv, Hmod. f_equal.
    apply IH; [assumption|assumption|].
    rewrite <- Hdiv. apply quotient_bound. lia.
Qed.

Lemma enough_fuel_spec i : 0 <= i -> 0 <= i < 2 ^ Z.of_nat (enough_fuel i).
Proof.
  intros Hi. split; [assumption|]. unfold enough_fuel.
  rewrite Nat2Z.inj_succ, Z2Nat.id by apply Z.log2_nonneg.
  destruct (Z.eq_dec i 0) as [->|Hne]; [reflexivity|].
  apply Z.log2_spec. lia.
Qed.

Lemma from_int_to_digits i : 0 <= i -> from_digits b (int_to_digits b i) = i.
Proof. intros Hi. apply from_to_digits, enough_fuel_spec, Hi. Qed.

Lemma int_to_from_digits l :
  Forall (digit b) l -> no_leading_zero l ->
  int_to_digits b (from_digits b l) = l.
Proof.
  intros Hl Hz. apply to_from_digits; [assumption|assumption|].
  apply enough_fuel_spec, from_digits_nonneg, Hl.
Qed.
End Numerals.

(** ** Bytes and base58 *)

Lemma byte_to_Z_range x : 0 <= byte_to_Z x < 256.
Proof.
  unfold byte_to_Z. pose proof (Byte.to_N_bounded x). lia.
Qed.

Lemma byte_of_to_Z x : byte_of_Z (byte_to_Z x) = x.
Proof.
  unfold byte_of_Z, byte_to_Z. now rewrite N2Z.id, Byte.of_to_N.
Qed.

Lemma byte_to_Z_zero x : byte_to_Z x = 0 -> x = x00.
Proof.
  intros H. rewrite <- (byte_of_to_Z x), H. reflexivity.
Qed.

Module Base58Facts.
Import Base58.

Section Lstrip.
Context {A : Type} (p : A -> bool).

Lemma lstrip_head v : head_fails p (lstrip p v).
Proof.
  induction v as [|a v IH]; simpl; [exact I|].
  destruct (p a) eqn:E; [exact IH|exact E].
Qed.

Lemma lstrip_id v : head_fails p v -> lstrip p v = v.
Proof. destruct v as [|a v]; simpl; [reflexivity|]. now intros ->. Qed.

Lemma lstrip_length v : (length (lstrip p v) <= length v)%nat.
Proof.
  induction v as [|a v IH]; simpl; [lia|].
  destruct (p a); simpl; lia.
Qed.

Lemma lstrip_split v :
  exists pre, v = pre ++ lstrip p v /\ Forall (fun a => p a = true) pre.
Proof.
  induction v as [|a v (pre & Hv & Hpre)]; simpl.
  - exists []. split; [reflexivity|constructor].
  - destruct (p a) eqn:E.
    + exists (a :: pre). split; [simpl; congruence|now constructor].
    + exists []. split; [reflexivity|constructor].
Qed.

Lemma lstrip_app pre v :
  Forall (fun a => p a = true) pre -> head_fails p v -> lstrip p (pre ++ v) = v.
Proof.
  induction 1 as [|a pre Ha _ IH]; intros Hv; simpl.
  - now apply lstrip_id.
  - rewrite Ha. now apply IH.
Qed.
End Lstrip.

Lemma zero_prefix (pre : list byte) :
  Forall (fun a => is_zero_byte a = true) pre -> pre = repeat x00 (length pre).
Proof.
  induction 1 as [|a pre Ha _ IH]; simpl; [reflexivity|].
  apply Byte.byte_dec_bl in Ha. congruence.
Qed.

Lemma alphabet_table :
  forallb (fun n =>
    let c := alphabet_at (Z.of_nat n) in
    match alphabet_index c with
    | Some d => (d =? Z.of_nat n)
                && (negb (is_one_char c) || (n =? 0)%nat)
    | None => false
    end) (seq 0 58) = true.
Proof. vm_compute. reflexivity. Qed.

Lemma alphabet_facts d :
  0 <= d < 58 ->
  alphabet_index (alphabet_at d) = Some d
  /\ (d <> 0 -> is_one_char (alphabet_at d) = false).
Proof.
  intros Hd. pose proof alphabet_table as H.
  rewrite forallb_forall in H. specialize (H (Z.to_nat d)).
  rewrite Z2Nat.id in H by lia. cbv zeta in H.
  assert (Hin : In (Z.to_nat d) (seq 0 58)) by (apply in_seq; lia).
  specialize (H Hin).
  destruct (alphabet_index (alphabet_at d)) as [d'|]; [|discriminate].
  apply andb_prop in H as [H1 H3].
  apply Z.eqb_eq in H1. subst d'.
  split; [reflexivity|].
  intros Hne. apply orb_prop in H3 as [H3|H3].
  - now destruct (is_one_char _).
  - apply Nat.eqb_eq in H3. lia.
Qed.

Lemma b58decode_int_from_digits ds : forall decimal,
  Forall (digit 58) ds ->
  b58decode_int_from decimal (map alphabet_at ds)
  = Returns (fold_left (fun acc d => acc * 58 + d) ds decimal).
Proof.
  induction ds as [|d ds IH]; intros decimal Hds; simpl; [reflexivity|].
  inversion Hds as [|? ? Hd Hds']; subst.
  destruct (alphabet_facts d Hd) as (-> & _).
  now apply IH.
Qed.

Lemma digits_head_not_one ds :
  Forall (digit 58) ds -> no_leading_zero ds ->
  head_fails is_one_char (map alphabet_at ds).
Proof.
  destruct 1 as [|d ds Hd _]; simpl; [trivial|].
  intros Hnz. now apply (alphabet_facts d Hd).
Qed.

Lemma bytes_no_leading_zero (v : list byte) :
  head_fails is_zero_byte v -> no_leading_zero (map byte_to_Z v).
Proof.
  destruct v as [|a v]; simpl; [trivial|].
  intros Ha Hz. apply byte_to_Z_zero in Hz. now subst.
Qed.

Lemma bytes_are_digits (v : list byte) : Forall (digit 256) (map byte_to_Z v).
Proof.
  induction v; simpl; constructor; [apply byte_to_Z_range|assumption].
Qed.

Lemma map_byte_of_to_Z (v : list byte) : map byte_of_Z (map byte_to_Z v) = v.
Proof.
  induction v as [|a v IH]; simpl; [reflexivity|].
  now rewrite byte_of_to_Z, IH.
Qed.

Theorem b58decode_b58encode (v : list byte) :
  b58decode (b58encode v) = Returns v.
Proof.
  unfold b58encode, b58encode_int.
  set (v' := lstrip is_zero_byte v).
  set (acc := from_digits 256 (map byte_to_Z v')).
  set (n := (length v - length v')%nat).
  assert (Hacc : 0 <= acc)
    by (apply from_digits_nonneg; [lia|apply bytes_are_digits]).
  assert (Hds : Forall (digit 58) (int_to_digits 58 acc))
    by (apply to_digits_range; lia).
  assert (Hnz : no_leading_zero (int_to_digits 58 acc))
    by (apply to_digits_no_leading_zero; [lia|apply enough_fuel_spec; lia]).
  unfold b58decode.
  rewrite lstrip_app; cycle 1.
  { clear. induction n; simpl; constructor; [reflexivity|assumption]. }
  { now apply digits_head_not_one. }
  unfold b58decode_int.
  rewrite b58decode_int_from_digits by assumption.
  change (fold_left _ _ 0) with (from_digits 58 (int_to_digits 58 acc)).
  rewrite from_int_to_digits by lia.
  cbn [mbind result_bind].
  rewrite length_app, repeat_length.
  replace (n + _ - _)%nat with n by lia.
  subst acc. rewrite int_to_from_digits;
    [|lia|apply bytes_are_digits|apply bytes_no_leading_zero, lstrip_head].
  rewrite map_byte_of_to_Z. f_equal.
  destruct (lstrip_split is_zero_byte v) as (pre & Hv & Hpre).
  fold v' in Hv.
  assert (Hlen : length v = (length pre + length v')%nat)
    by (rewrite Hv at 1; apply length_app).
  replace n with (length pre) by (subst n; lia).
  now rewrite <- zero_prefix.
Qed.
End Base58Facts.

(** ** Public keys *)

Lemma to_bytes_valid (pk : PublicKey.t) :
  PublicKey.valid pk -> PublicKey.to_bytes pk = PublicKey.key pk.
Proof.
  unfold PublicKey.valid, PublicKey.to_bytes. intros ->.
  now rewrite Nat.sub_diag.
Qed.

Lemma to_bytes_length (pk : PublicKey.t) :
  PublicKey.constructible pk ->
  length (PublicKey.to_bytes pk) = PublicKey.LENGTH.
Proof.
  unfold PublicKey.constructible, PublicKey.to_bytes. intros Hle.
  rewrite length_app, repeat_length. lia.
Qed.

(** Parsing the text of a key gives its 32 bytes. *)
Lemma PublicKey_of_str_to_str_bytes (pk : PublicKey.t) :
  PublicKey.constructible pk ->
  PublicKey.of_str (PublicKey.to_str pk)
  = Returns (PublicKey.mk (PublicKey.to_bytes pk)).
Proof.
  intros Hle. unfold PublicKey.of_str, PublicKey.to_str.
  rewrite list_ascii_of_string_of_list_ascii, Base58Facts.b58decode_b58encode.
  pose proof (to_bytes_length pk Hle) as Hlen.
  now rewrite decide_False by (intros Hne; apply Hne, Hlen).
Qed.

Lemma PublicKey_of_str_to_str (pk : PublicKey.t) :
  PublicKey.valid pk -> PublicKey.of_str (PublicKey.to_str pk) = Returns pk.
Proof.
  intros Hvalid. rewrite PublicKey_of_str_to_str_bytes.
  - rewrite to_bytes_valid by assumption. now destruct pk.
  - unfold PublicKey.constructible. unfold PublicKey.valid in Hvalid. lia.
Qed.

Lemma PublicKey_of_str_valid (s : string) (pk : PublicKey.t) :
  PublicKey.of_str s = Returns pk -> PublicKey.valid pk.
Proof.
  unfold PublicKey.of_str, PublicKey.valid.
  destruct (Base58.b58decode _) as [k|[]]; try discriminate.
  destruct (decide (length k ≠ PublicKey.LENGTH)) as [|Heq]; [discriminate|].
  intros [= <-]. simpl. now destruct (decide (length k = PublicKey.LENGTH)).
Qed.

(** ** The account layout *)

(** Parsing the [Counter] layout needs 40 bytes: the first 32 become the
    authority, the next 8 the count, the rest is ignored. *)
Lemma layout_parse_spec (stream : list byte) :
  borsh.parse Counter.layout stream
  = if decide (length stream < 40)%nat then Raises StreamError
    else Returns (Counter.mk (PublicKey.mk (take 32 stream))
                    (borsh.int_from_little (take 8 (drop 32 stream)))).
Proof.
  unfold borsh.parse, Counter.layout, borsh.BorshPubkey, borsh.U64, borsh.Bytes.
  destruct (decide (length stream < 32)%nat) as [Hshort|Hlong]; simpl.
  - now rewrite decide_True by lia.
  - unfold PublicKey.of_bytes.
    rewrite decide_False by (rewrite length_take; unfold PublicKey.LENGTH; lia).
    simpl. rewrite length_drop.
    destruct (decide (length stream - 32 < 8)%nat) as [Hs|Hl]; simpl.
    + now rewrite decide_True by lia.
    + now rewrite decide_False by lia.
Qed.

Lemma layout_parse_not_discriminator_error (stream : list byte) (msg : string) :
  borsh.parse Counter.layout stream <> Raises (AccountInvalidDiscriminator msg).
Proof.
  rewrite layout_parse_spec. now destruct (decide _).
Qed.

Lemma decode_matching (data : list byte) :
  take ACCOUNT_DISCRIMINATOR_SIZE data = Counter.discriminator ->
  Counter.decode data
  = borsh.parse Counter.layout (drop ACCOUNT_DISCRIMINATOR_SIZE data).
Proof.
  intros Heq. unfold Counter.decode.
  rewrite decide_False by (intros Hne; apply Hne, Heq).
  now destruct (borsh.parse _ _) as [[]|].
Qed.

(** C6: [decode] raises [AccountInvalidDiscriminator] exactly when the first
    eight bytes differ from the discriminator; when they agree, its result
    is that of parsing the remaining bytes with the struct layout, which on
    at least 40 remaining bytes is the record of the authority and the
    count read from them. *)
Theorem decode_checks_discriminator (data : list byte) :
  ((exists msg, Counter.decode data = Raises (AccountInvalidDiscriminator msg))
   <-> take 8 data ≠ Counter.discriminator)
  /\ (take 8 data = Counter.discriminator ->
      Counter.decode data = borsh.parse Counter.layout (drop 8 data))
  /\ (take 8 data = Counter.discriminator -> (48 <= length data)%nat ->
      Counter.decode data
      = Returns (Counter.mk (PublicKey.mk (take 32 (drop 8 data)))
                   (borsh.int_from_little (take 8 (drop 40 data))))).
Proof.
  split; [split|split].
  - intros [msg Hraise] Heq.
    rewrite (decode_matching data Heq) in Hraise.
    now apply layout_parse_not_discriminator_error in Hraise.
  - intros Hne. eexists. unfold Counter.decode.
    now rewrite decide_True by exact Hne.
  - apply decode_matching.
  - intros Heq Hlen. rewrite (decode_matching data Heq), layout_parse_spec.
    rewrite decide_False
      by (unfold ACCOUNT_DISCRIMINATOR_SIZE; rewrite length_drop; lia).
    unfold ACCOUNT_DISCRIMINATOR_SIZE. now rewrite drop_drop.
Qed.

(** C10: on fewer than eight bytes [decode] raises
    [AccountInvalidDiscriminator]: the slice [data[:8]] is the whole input,
    too short to equal the discriminator, and the layout is never parsed. *)
Theorem decode_short_input (data : list byte) :
  (length data < 8)%nat ->
  Counter.decode data
  = Raises (AccountInvalidDiscriminator
              "The discriminator for this account is invalid").
Proof.
  intros Hshort. unfold Counter.decode.
  rewrite decide_True; [reflexivity|].
  intros Heq. apply (f_equal length) in Heq.
  rewrite length_take in Heq.
  change (length Counter.discriminator) with 8%nat in Heq.
  unfold ACCOUNT_DISCRIMINATOR_SIZE in Heq. lia.
Qed.

Lemma to_bytes_padded (pk : PublicKey.t) :
  PublicKey.constructible pk ->
  PublicKey.to_bytes (PublicKey.mk (PublicKey.to_bytes pk))
  = PublicKey.to_bytes pk.
Proof.
  intros Hle. apply to_bytes_valid. now apply to_bytes_length.
Qed.

(** C9: every record survives the trip through its JSON form: [from_json]
    of [to_json] returns a record equal to it by the dataclass's [==],
    whose authority is the key on its 32 bytes; it is the record itself
    when the key already has 32 bytes. The authority of the JSON form is
    the canonical base58 text of those 32 bytes: [PublicKey] reads them
    back from it, and the returned record has the same JSON form. The
    hypothesis is the constructor's: a [PublicKey] holds at most 32
    bytes. *)
Theorem from_json_to_json (r : Counter.t) :
  PublicKey.constructible (Counter.authority r) ->
  exists r',
    Counter.from_json (Counter.to_json r) = Returns r'
    /\ Counter.equal r' r
    /\ PublicKey.key (Counter.authority r')
       = PublicKey.to_bytes (Counter.authority r)
    /\ (PublicKey.valid (Counter.authority r) -> r' = r)
    /\ PublicKey.of_str (Counter.json_authority (Counter.to_json r))
       = Returns (Counter.authority r')
    /\ Counter.to_json r' = Counter.to_json r.
Proof.
  intros Hle.
  exists (Counter.mk (PublicKey.mk (PublicKey.to_bytes (Counter.authority r)))
            (Counter.count r)).
  pose proof (PublicKey_of_str_to_str_bytes _ Hle) as Hparse.
  pose proof (to_bytes_padded _ Hle) as Hpad.
  split; [|split; [|split; [|split; [|split]]]].
  - unfold Counter.from_json, Counter.to_json. simpl. now rewrite Hparse.
  - split; [exact Hpad|reflexivity].
  - reflexivity.
  - intros Hvalid. rewrite to_bytes_valid by assumption.
    now destruct r as [[k] c].
  - exact Hparse.
  - unfold Counter.to_json, PublicKey.to_str. simpl. now rewrite Hpad.
Qed.

(** ** Fetching *)

Section FetchFacts.

Variable PROGRAM_ID : PublicKey.t.
Variable b64decode : string -> result (list byte).

(** C5: an account whose recorded owner is not the program id makes
    [fetch] raise the owner error, whatever its bytes are; no record is
    returned. *)
Theorem fetch_owner_mismatch (conn : AsyncClient) (address : PublicKey.t)
    (commitment : option Commitment) (info : AccountInfo) :
  get_account_info conn address commitment = Returns (Some info) ->
  owner info ≠ PublicKey.to_str PROGRAM_ID ->
  Counter.fetch PROGRAM_ID b64decode conn address commitment
  = Raises (ValueError "Account does not belong to this program")
  /\ forall r, Counter.fetch PROGRAM_ID b64decode conn address commitment
               <> Returns r.
Proof.
  intros Hinfo Howner.
  assert (Counter.fetch PROGRAM_ID b64decode conn address commitment
          = Raises (ValueError "Account does not belong to this program"))
    as Hraise.
  { unfold Counter.fetch. rewrite Hinfo. simpl.
    now rewrite decide_True by exact Howner. }
  split; [exact Hraise|]. intros r. now rewrite Hraise.
Qed.

Lemma fetch_absent (conn : AsyncClient) (address : PublicKey.t)
    (commitment : option Commitment) :
  get_account_info conn address commitment = Returns None ->
  Counter.fetch PROGRAM_ID b64decode conn address commitment = Returns None.
Proof. intros Hinfo. unfold Counter.fetch. now rewrite Hinfo. Qed.

Lemma fetch_multiple_body_absent (res : list (option Counter.t)) :
  Counter.fetch_multiple_body PROGRAM_ID b64decode res None
  = Raises (TypeError "'NoneType' object is not subscriptable").
Proof. reflexivity. Qed.

Lemma fetch_multiple_body_returns (res res' : list (option Counter.t))
    (info : option AccountInfo) :
  Counter.fetch_multiple_body PROGRAM_ID b64decode res info = Returns res' ->
  exists account, info <> None /\ res' = res ++ [Some account].
Proof.
  destruct info as [i|]; [|discriminate].
  unfold Counter.fetch_multiple_body. simpl.
  destruct (decide _); [discriminate|].
  destruct (getitem _ _) as [d|]; [simpl|discriminate].
  destruct (b64decode d) as [bytes_data|]; [simpl|discriminate].
  destruct (Counter.decode bytes_data) as [account|]; [simpl|discriminate].
  intros [= <-]. now exists account.
Qed.

(** With the absent element in first place the exception is the
    [TypeError] of subscripting [None]. *)
Lemma fetch_multiple_first_absent (conn : AsyncClient)
    (addresses : list Address) (commitment : option Commitment)
    (rest : list (option AccountInfo)) :
  get_multiple_accounts conn addresses commitment = Returns (None :: rest) ->
  Counter.fetch_multiple PROGRAM_ID b64decode conn addresses commitment
  = Raises (TypeError "'NoneType' object is not subscriptable").
Proof.
  intros Hinfos. unfold Counter.fetch_multiple. now rewrite Hinfos.
Qed.

Lemma for_each_absent (infos : list (option AccountInfo)) :
  In None infos ->
  forall res, exists e,
    for_each (Counter.fetch_multiple_body PROGRAM_ID b64decode) infos res
    = Raises e.
Proof.
  induction infos as [|info infos IH]; intros Hin res; [destruct Hin|].
  simpl.
  destruct (Counter.fetch_multiple_body PROGRAM_ID b64decode res info)
    as [res'|e] eqn:Hbody; simpl; [|now exists e].
  destruct Hin as [->|Hin]; [discriminate|].
  now apply IH.
Qed.

(** C1, as the code behaves: an absent element anywhere in the response
    makes [fetch_multiple] raise; no list is returned. *)
Theorem fetch_multiple_absent_raises (conn : AsyncClient)
    (addresses : list Address) (commitment : option Commitment)
    (infos : list (option AccountInfo)) :
  get_multiple_accounts conn addresses commitment = Returns infos ->
  In None infos ->
  exists e,
    Counter.fetch_multiple PROGRAM_ID b64decode conn addresses commitment
    = Raises e.
Proof.
  intros Hinfos Hin. unfold Counter.fetch_multiple. rewrite Hinfos. simpl.
  now apply for_each_absent.
Qed.

Lemma for_each_returns (infos : list (option AccountInfo)) :
  forall res res',
    for_each (Counter.fetch_multiple_body PROGRAM_ID b64decode) infos res
    = Returns res' ->
    exists accounts,
      res' = res ++ map Some accounts /\ length accounts = length infos.
Proof.
  induction infos as [|info infos IH]; intros res res' Hrun; simpl in Hrun.
  - injection Hrun as <-. exists []. now rewrite app_nil_r.
  - destruct (Counter.fetch_multiple_body PROGRAM_ID b64decode res info)
      as [res1|] eqn:Hbody; [simpl in Hrun|discriminate].
    apply fetch_multiple_body_returns in Hbody as (account & _ & ->).
    apply IH in Hrun as (accounts & -> & Hlen).
    exists (account :: accounts). simpl.
    now rewrite <- app_assoc, Hlen.
Qed.

(** Whenever [fetch_multiple] does return, every element of its result is
    a decoded record: the absent marker never reaches the caller. *)
Lemma fetch_multiple_returns_records (conn : AsyncClient)
    (addresses : list Address) (commitment : option Commitment)
    (infos : list (option AccountInfo)) (res : list (option Counter.t)) :
  get_multiple_accounts conn addresses commitment = Returns infos ->
  Counter.fetch_multiple PROGRAM_ID b64decode conn addresses commitment
  = Returns res ->
  length res = length infos /\ Forall (fun r => r <> None) res.
Proof.
  intros Hinfos. unfold Counter.fetch_multiple. rewrite Hinfos. simpl.
  intros Hrun. apply for_each_returns in Hrun as (accounts & -> & Hlen).
  simpl. rewrite length_map. split; [assumption|].
  apply List.Forall_forall. intros r Hr.
  apply in_map_iff in Hr as (a & <- & _).
  discriminate.
Qed.

End FetchFacts.

(** ** Errors *)

Lemma list_ascii_of_string_app (a b : string) :
  list_ascii_of_string (a +:+ b)
  = list_ascii_of_string a ++ list_ascii_of_string b.
Proof. induction a as [|c a IH]; simpl; [reflexivity|]. now rewrite IH. Qed.

Lemma string_of_list_ascii_app (a b : list ascii) :
  string_of_list_ascii (a ++ b)
  = string_of_list_ascii a +:+ string_of_list_ascii b.
Proof. induction a as [|c a IH]; simpl; [reflexivity|]. now rewrite IH. Qed.

Lemma literal_spec (lit s rest : list ascii) :
  errors.literal lit s = Some rest <-> s = lit ++ rest.
Proof.
  revert s. induction lit as [|a lit IH]; intros s; simpl.
  - split; congruence.
  - destruct s as [|c s]; [split; discriminate|].
    destruct (Ascii.eqb_spec a c) as [->|Hne].
    + rewrite IH. split; congruence.
    + split; [discriminate|]. intros [= -> _]. now destruct Hne.
Qed.

Lemma span_word_spec (s run tail : list ascii) :
  errors.span_word s = (run, tail) ->
  s = run ++ tail
  /\ Forall (fun c => errors.is_word c = true) run
  /\ head_fails errors.is_word tail.
Proof.
  revert run tail. induction s as [|c s IH]; intros run tail; simpl.
  - intros [= <- <-]. repeat split; constructor.
  - destruct (errors.is_word c) eqn:Hc.
    + destruct (errors.span_word s) as [run' tail'].
      intros [= <- <-]. destruct (IH _ _ eq_refl) as (-> & Hrun & Htail).
      repeat split; [constructor|]; assumption.
    + intros [= <- <-]. repeat split; [constructor|exact Hc].
Qed.

Lemma span_word_app (run tail : list ascii) :
  Forall (fun c => errors.is_word c = true) run ->
  head_fails errors.is_word tail ->
  errors.span_word (run ++ tail) = (run, tail).
Proof.
  induction 1 as [|c run Hc _ IH]; intros Htail; simpl.
  - destruct tail as [|c tail]; [reflexivity|].
    simpl in *. now rewrite Htail.
  - now rewrite Hc, IH.
Qed.

(** [error_re_match] finds exactly the lines of the pattern, and its groups
    are the address and the code. *)
Lemma error_re_match_spec (logline address code : string) :
  errors.error_re_match logline = Some (address, code)
  <-> errors.matches_pattern logline address code.
Proof.
  unfold errors.error_re_match, errors.matches_pattern, errors.word_text.
  split.
  - remember (list_ascii_of_string "Program ") as program eqn:Eprogram.
    remember (list_ascii_of_string " failed: custom program error: ")
      as failed eqn:Efailed.
    destruct (errors.literal program (list_ascii_of_string logline))
      as [s1|] eqn:Hprogram; [|discriminate].
    apply literal_spec in Hprogram. cbn [mbind option_bind].
    destruct (errors.span_word s1) as [program_id_raw s2] eqn:Haddress.
    apply span_word_spec in Haddress as (-> & Haddress & _).
    destruct (decide (program_id_raw = [])) as [|Hnonempty]; [discriminate|].
    destruct (errors.literal failed s2) as [s3|] eqn:Hfailed; [|discriminate].
    apply literal_spec in Hfailed as ->. cbn [mbind option_bind].
    destruct (errors.span_word s3) as [code_raw tail] eqn:Hcode.
    apply span_word_spec in Hcode as (-> & Hcode & Htail).
    destruct (decide (code_raw = [])) as [|Hnonempty']; [discriminate|].
    intros [= <- <-]. exists (string_of_list_ascii tail).
    rewrite !list_ascii_of_string_of_list_ascii.
    repeat split; try assumption.
    + rewrite <- (string_of_list_ascii_of_string logline), Hprogram.
      rewrite !string_of_list_ascii_app. subst program failed.
      now rewrite !string_of_list_ascii_of_string.
    + now destruct program_id_raw.
    + now destruct code_raw.
  - intros (tail & -> & [Ha Haddress] & [Hc Hcode] & Htail).
    rewrite !list_ascii_of_string_app.
    rewrite (proj2 (literal_spec _ _ _) eq_refl). cbn [mbind option_bind].
    rewrite span_word_app by (assumption || reflexivity).
    rewrite decide_False by (destruct address; [congruence|discriminate]).
    rewrite (proj2 (literal_spec _ _ _) eq_refl). cbn [mbind option_bind].
    rewrite span_word_app by assumption.
    rewrite decide_False by (destruct code; [congruence|discriminate]).
    now rewrite !string_of_list_ascii_of_string.
Qed.

Section ErrorFacts.

Variable PROGRAM_ID : PublicKey.t.
Variables CustomError AnchorError : Type.
Variable custom_from_code : Z -> option CustomError.
Variable anchor_from_code : Z -> option AnchorError.

Local Abbreviation from_code :=
  (errors.from_code CustomError AnchorError custom_from_code anchor_from_code).
Local Abbreviation from_tx_error :=
  (errors.from_tx_error PROGRAM_ID CustomError AnchorError
     custom_from_code anchor_from_code).

Lemma from_code_custom (code : Z) :
  6000 <= code -> from_code code = inl <$> custom_from_code code.
Proof.
  intros Hcode. unfold errors.from_code.
  now destruct (Z.leb_spec 6000 code); [|lia].
Qed.

Lemma from_code_anchor (code : Z) :
  code < 6000 -> from_code code = inr <$> anchor_from_code code.
Proof.
  intros Hcode. unfold errors.from_code.
  now destruct (Z.leb_spec 6000 code); [lia|].
Qed.

(** C7: [from_code] consults the custom table exactly for codes from 6000
    up and the framework table for codes below; 6000 and 5999 sit on the
    two sides of the boundary, and a code the consulted table does not
    know yields [None]. *)
Theorem from_code_dispatch (code : Z) :
  (6000 <= code -> from_code code = inl <$> custom_from_code code)
  /\ (code < 6000 -> from_code code = inr <$> anchor_from_code code)
  /\ (forall e, from_code code = Some (inl e) ->
        6000 <= code /\ custom_from_code code = Some e)
  /\ (forall e, from_code code = Some (inr e) ->
        code < 6000 /\ anchor_from_code code = Some e)
  /\ from_code 6000 = inl <$> custom_from_code 6000
  /\ from_code 5999 = inr <$> anchor_from_code 5999
  /\ (6000 <= code -> custom_from_code code = None -> from_code code = None)
  /\ (code < 6000 -> anchor_from_code code = None -> from_code code = None).
Proof.
  assert (forall e, from_code code = Some (inl e) ->
            6000 <= code /\ custom_from_code code = Some e) as Hinl.
  { intros e He. destruct (Z.le_gt_cases 6000 code) as [Hge|Hlt].
    - rewrite from_code_custom in He by assumption.
      destruct (custom_from_code code); simpl in He; [|discriminate].
      split; [assumption|congruence].
    - rewrite from_code_anchor in He by assumption.
      now destruct (anchor_from_code code). }
  assert (forall e, from_code code = Some (inr e) ->
            code < 6000 /\ anchor_from_code code = Some e) as Hinr.
  { intros e He. destruct (Z.le_gt_cases 6000 code) as [Hge|Hlt].
    - rewrite from_code_custom in He by assumption.
      now destruct (custom_from_code code).
    - rewrite from_code_anchor in He by assumption.
      destruct (anchor_from_code code); simpl in He; [|discriminate].
      split; [assumption|congruence]. }
  split; [apply from_code_custom|].
  split; [apply from_code_anchor|].
  split; [exact Hinl|]. split; [exact Hinr|].
  split; [apply from_code_custom; lia|].
  split; [apply from_code_anchor; lia|].
  split.
  - intros Hge Hnone. now rewrite from_code_custom, Hnone.
  - intros Hlt Hnone. now rewrite from_code_anchor, Hnone.
Qed.

Lemma from_tx_error_without_logs (error : gmap string (list string)) :
  error !! "logs" = None -> from_tx_error error = Returns None.
Proof. intros Hlogs. unfold errors.from_tx_error. now rewrite Hlogs. Qed.

Lemma scan_logs_no_match (logs : list string) :
  Forall (fun logline => errors.error_re_match logline = None) logs ->
  forall first_match,
    errors.scan_logs logs first_match
    = match logs with
      | [] => first_match
      | _ :: _ => Some None
      end.
Proof.
  induction 1 as [|logline logs Hline _ IH]; intros first_match;
    [reflexivity|].
  simpl. rewrite Hline, IH. now destruct logs.
Qed.

Lemma error_re_match_none (logline : string) :
  errors.error_re_match logline = None
  <-> forall address code, ~ errors.matches_pattern logline address code.
Proof.
  split.
  - intros Hnone address code Hmatch.
    apply error_re_match_spec in Hmatch. congruence.
  - intros Hno. destruct (errors.error_re_match logline) as [[address code]|] eqn:E;
      [|reflexivity].
    apply error_re_match_spec in E. now apply Hno in E.
Qed.

(** With at least one log line and none matching, the loop leaves
    [first_match] bound to [None] and [from_tx_error] returns [None]. *)
Lemma from_tx_error_no_match (error : gmap string (list string))
    (logs : list string) :
  error !! "logs" = Some logs ->
  logs <> [] ->
  Forall (fun logline => errors.error_re_match logline = None) logs ->
  from_tx_error error = Returns None.
Proof.
  intros Hlogs Hne Hno. unfold errors.from_tx_error.
  rewrite Hlogs, scan_logs_no_match by assumption.
  now destruct logs.
Qed.

(** C3, as the code behaves: with an empty list of logs the loop never
    assigns [first_match], and reading it raises. *)
Theorem from_tx_error_empty_logs (error : gmap string (list string)) :
  from_tx_error (<["logs" := []]> error)
  = Raises (UnboundLocalError "first_match").
Proof.
  unfold errors.from_tx_error. now rewrite lookup_insert_eq.
Qed.

Lemma scan_logs_first_match (before after : list string) (logline : string)
    (groups : string * string) :
  Forall (fun l => errors.error_re_match l = None) before ->
  errors.error_re_match logline = Some groups ->
  forall first_match,
    errors.scan_logs (before ++ logline :: after) first_match
    = Some (Some groups).
Proof.
  intros Hbefore Hline.
  induction Hbefore as [|l before Hl _ IH]; intros first_match; simpl.
  - now rewrite Hline.
  - now rewrite Hl, IH.
Qed.

(** C4, as the code behaves: once the first matching line names this
    program, [code_raw(16)] calls a string; the [TypeError] is not a
    [ValueError], so it escapes the handler, whatever the code text is. *)
Theorem from_tx_error_own_program_raises (error : gmap string (list string))
    (before after : list string) (logline code_raw : string) :
  error !! "logs" = Some (before ++ logline :: after) ->
  Forall (fun l => errors.error_re_match l = None) before ->
  errors.error_re_match logline
  = Some (PublicKey.to_str PROGRAM_ID, code_raw) ->
  from_tx_error error = Raises (TypeError "'str' object is not callable").
Proof.
  intros Hlogs Hbefore Hline. unfold errors.from_tx_error.
  rewrite Hlogs, (scan_logs_first_match _ _ _ _ Hbefore Hline). simpl.
  now rewrite decide_False by (intros Hne; now apply Hne).
Qed.

(** [from_tx_error] never yields an error variant. *)
Lemma from_tx_error_never_finds (error : gmap string (list string)) e :
  from_tx_error error <> Returns (Some e).
Proof.
  unfold errors.from_tx_error.
  destruct (error !! "logs") as [logs|]; [|discriminate].
  destruct (errors.scan_logs logs None) as [[[pid code]|]|]; simpl;
    try discriminate.
  now destruct (decide _).
Qed.

End ErrorFacts.

(** ** Account trees *)

Section AccountTrees.

Import instructions.

(** Induction on account items, with the hypothesis for every member of a
    group. *)
Lemma IdlAccountItem_members_ind (P : IdlAccountItem -> Prop) :
  (forall name is_mut is_signer, P (IdlAccount name is_mut is_signer)) ->
  (forall name accounts, Forall P accounts -> P (IdlAccounts name accounts)) ->
  forall acc, P acc.
Proof.
  intros Hleaf Hgroup.
  fix IH 1. intros [name is_mut is_signer|name accounts].
  - apply Hleaf.
  - apply Hgroup. induction accounts as [|a accounts IHaccounts].
    + constructor.
    + constructor; [apply IH|apply IHaccounts].
Qed.

Lemma flat_map_pointwise {A B C : Type} (f : A -> list B) (g : A -> list C)
    (h : C -> B) (l : list A) :
  Forall (fun a => f a = map h (g a)) l ->
  flat_map f l = map h (flat_map g l).
Proof.
  induction 1 as [|a l Ha _ IH]; simpl; [reflexivity|].
  now rewrite map_app, Ha, IH.
Qed.

Lemma append_assoc (a b c : string) : (a +:+ b) +:+ c = a +:+ b +:+ c.
Proof.
  induction a as [|x a IH]; [reflexivity|].
  change (String x ((a +:+ b) +:+ c) = String x (a +:+ b +:+ c)).
  now rewrite IH.
Qed.

Lemma nested_key_accessor (name : string) (rest : string) :
  nested_key name +:+ rest
  = "[" +:+ quote_mark +:+ name +:+ quote_mark +:+ "]" +:+ rest.
Proof.
  unfold nested_key, dquote, quote_mark. now rewrite !append_assoc.
Qed.

Lemma concat_accessor (names : list string) (rest : string) :
  String.concat EmptyString (map nested_key names) +:+ rest
  = accessor names rest.
Proof.
  induction names as [|name names IH]; [reflexivity|].
  change (accessor (name :: names) rest)
    with ("[" +:+ quote_mark +:+ name +:+ quote_mark +:+ "]"
          +:+ accessor names rest).
  rewrite <- nested_key_accessor, <- IH.
  destruct names as [|name' names]; [reflexivity|].
  change (String.concat EmptyString
            (map nested_key (name :: name' :: names)))
    with (nested_key name
          +:+ String.concat EmptyString (map nested_key (name' :: names))).
  apply append_assoc.
Qed.

Lemma recurse_account_flatten (acc : IdlAccountItem) :
  forall nested_names,
    recurse_account acc nested_names
    = map meta_text (flatten_item nested_names acc).
Proof.
  induction acc as [name is_mut is_signer|name accounts IH]
    using IdlAccountItem_members_ind; intros nested_names.
  - cbn [recurse_account flatten_item item_name map]. f_equal.
    unfold meta_text. cbn [meta_path meta_is_signer meta_is_writable].
    f_equal. rewrite concat_accessor. reflexivity.
  - simpl. apply flat_map_pointwise.
    eapply Forall_impl; [exact IH|]. intros a Ha. apply Ha.
Qed.

Lemma flatten_item_length (acc : IdlAccountItem) :
  forall prefix, length (flatten_item prefix acc) = count_leaves acc.
Proof.
  induction acc as [name is_mut is_signer|name accounts IH]
    using IdlAccountItem_members_ind; intros prefix; [reflexivity|].
  simpl. induction IH as [|a accounts Ha _ IHaccounts]; simpl; [reflexivity|].
  now rewrite length_app, Ha, IHaccounts.
Qed.

Lemma flatten_tree_length (accs : list IdlAccountItem) (prefix : list string) :
  length (flatten_tree prefix accs) = list_sum (map count_leaves accs).
Proof.
  unfold flatten_tree.
  induction accs as [|a accs IH]; simpl; [reflexivity|].
  now rewrite length_app, flatten_item_length, IH.
Qed.

Lemma plain_name_cons (c : ascii) (name : string) :
  plain_name (String c name) -> c <> "034"%char /\ plain_name name.
Proof.
  unfold plain_name. simpl. intros Hplain.
  split; [intros ->; apply Hplain; now left|].
  intros Hin. apply Hplain. now right.
Qed.

Lemma plain_prefix_unique (n1 : string) :
  forall n2 r1 r2,
    plain_name n1 -> plain_name n2 ->
    n1 +:+ String "034" r1 = n2 +:+ String "034" r2 ->
    n1 = n2 /\ r1 = r2.
Proof.
  induction n1 as [|c1 n1 IH]; intros [|c2 n2] r1 r2 H1 H2 Heq.
  - change (String "034" r1 = String "034" r2) in Heq.
    now injection Heq.
  - change (String "034" r1 = String c2 (n2 +:+ String "034" r2)) in Heq.
    apply plain_name_cons in H2 as [Hc _]. injection Heq as Hq _.
    now destruct Hc.
  - change (String c1 (n1 +:+ String "034" r1) = String "034" r2) in Heq.
    apply plain_name_cons in H1 as [Hc _]. injection Heq as Hq _.
    now destruct Hc.
  - change (String c1 (n1 +:+ String "034" r1)
            = String c2 (n2 +:+ String "034" r2)) in Heq.
    injection Heq as -> Hrest.
    apply plain_name_cons in H1 as [_ H1], H2 as [_ H2].
    destruct (IH n2 r1 r2 H1 H2 Hrest) as [-> ->]. now split.
Qed.

Lemma accessor_cons (name : string) (path : list string) (rest : string) :
  accessor (name :: path) rest
  = String "[" (String "034"
      (name +:+ String "034" (String "]" (accessor path rest)))).
Proof. reflexivity. Qed.

Lemma accessor_unique (p1 : list string) :
  forall p2 t1 t2,
    Forall plain_name p1 -> Forall plain_name p2 ->
    accessor p1 (String "," t1) = accessor p2 (String "," t2) ->
    p1 = p2 /\ t1 = t2.
Proof.
  induction p1 as [|n1 p1 IH]; intros [|n2 p2] t1 t2 H1 H2 Heq.
  - change (String "," t1 = String "," t2) in Heq. now injection Heq.
  - rewrite accessor_cons in Heq.
    change (accessor [] (String "," t1)) with (String "," t1) in Heq.
    discriminate.
  - rewrite accessor_cons in Heq.
    change (accessor [] (String "," t2)) with (String "," t2) in Heq.
    discriminate.
  - rewrite !accessor_cons in Heq. injection Heq as Heq.
    inversion H1 as [|? ? Hn1 Hp1]; inversion H2 as [|? ? Hn2 Hp2]; subst.
    apply plain_prefix_unique in Heq as [-> Hrest]; [|assumption..].
    injection Hrest as Hrest.
    destruct (IH p2 t1 t2 Hp1 Hp2 Hrest) as [-> ->]. now split.
Qed.

(** The text of an entry tells the leaf it stands for: with names free of
    quotes, two leaves with the same text have the same path and flags. *)
Lemma meta_text_unique (m1 m2 : account_meta) :
  Forall plain_name (meta_path m1) -> Forall plain_name (meta_path m2) ->
  meta_text m1 = meta_text m2 -> m1 = m2.
Proof.
  destruct m1 as [p1 s1 w1], m2 as [p2 s2 w2]. unfold meta_text. simpl.
  intros H1 H2 Heq. apply (inj (String.append _)) in Heq.
  destruct (accessor_unique p1 p2
              (" is_signer=" +:+ python_bool s1
               +:+ ", is_writable=" +:+ python_bool w1 +:+ ")")
              (" is_signer=" +:+ python_bool s2
               +:+ ", is_writable=" +:+ python_bool w2 +:+ ")")
              H1 H2 Heq) as [-> Hflags].
  destruct s1, s2, w1, w2; vm_compute in Hflags;
    first [reflexivity|discriminate].
Qed.

(** C8: [recurse_accounts] is the depth-first, declaration-order
    flattening: it emits, in the order of the walk, exactly one
    [AccountMeta] text per leaf and none for a group; the text reads the
    public key from [accounts] by the leaf's nested path, one subscript per
    name from the root down, and carries the leaf's two flags, so that,
    names being free of quotes, it tells the leaf. The tree
    [{poolAuthority, pool: {vaultA, vaultB}}] flattens to the entries of
    [poolAuthority], [pool.vaultA] and [pool.vaultB], in that order. *)
Theorem recurse_accounts_flattens (accs : list IdlAccountItem)
    (nested_names : list string) :
  recurse_accounts accs nested_names
  = map meta_text (flatten_tree nested_names accs)
  /\ length (recurse_accounts accs nested_names)
     = list_sum (map count_leaves accs)
  /\ (forall m1 m2,
        Forall plain_name (meta_path m1) ->
        Forall plain_name (meta_path m2) ->
        meta_text m1 = meta_text m2 -> m1 = m2)
  /\ recurse_accounts Samples.pool_accounts []
     = [ "AccountMeta(pubkey=accounts[" +:+ quote_mark +:+ "poolAuthority"
           +:+ quote_mark +:+ "], is_signer=True, is_writable=False)";
         "AccountMeta(pubkey=accounts[" +:+ quote_mark +:+ "pool"
           +:+ quote_mark +:+ "][" +:+ quote_mark +:+ "vaultA"
           +:+ quote_mark +:+ "], is_signer=False, is_writable=True)";
         "AccountMeta(pubkey=accounts[" +:+ quote_mark +:+ "pool"
           +:+ quote_mark +:+ "][" +:+ quote_mark +:+ "vaultB"
           +:+ quote_mark +:+ "], is_signer=False, is_writable=True)" ]
  /\ map (fun m => dotted (meta_path m)) (flatten_tree [] Samples.pool_accounts)
     = ["poolAuthority"; "pool.vaultA"; "pool.vaultB"].
Proof.
  assert (recurse_accounts accs nested_names
          = map meta_text (flatten_tree nested_names accs)) as Heq.
  { unfold recurse_accounts, flatten_tree. apply flat_map_pointwise.
    apply List.Forall_forall. intros a _. apply recurse_account_flatten. }
  split; [exact Heq|]. split; [|split; [|split]].
  - now rewrite Heq, length_map, flatten_tree_length.
  - apply meta_text_unique.
  - vm_compute. reflexivity.
  - reflexivity.
Qed.

End AccountTrees.

(** ** Generated instruction modules *)

Section GeneratorFacts.

Import instructions.

Variable IdlType : Type.
Variable IdlTypeDef : Type.
Variable upper_camel : string -> string.
Variable _sighash : string -> list byte.
Variable _py_type_from_idl : Idl IdlType IdlTypeDef -> IdlType -> string.
Variable _layout_for_type : IdlType -> string -> string.
Variable _field_to_encodable :
  Idl IdlType IdlTypeDef -> IdlField IdlType -> string -> string -> string.
Variable str_StrDict : list str_dict_entry -> string.

Lemma gen_accounts_round_typed_dicts (acc : IdlAccountItem) :
  forall state,
    Forall is_typed_dict state.2 ->
    Forall is_typed_dict (gen_accounts_round upper_camel state acc).2.
Proof.
  induction acc as [name is_mut is_signer|name accounts IH]
    using IdlAccountItem_members_ind; intros [params extra] Hextra.
  - exact Hextra.
  - simpl in *.
    assert (forall state, Forall is_typed_dict state.2 ->
              Forall is_typed_dict
                (fold_left (gen_accounts_round upper_camel) accounts state).2)
      as Hfold.
    { induction IH as [|a accounts Ha _ IHaccounts]; intros state Hstate;
        simpl; [assumption|].
      apply IHaccounts, Ha, Hstate. }
    specialize (Hfold ([], extra) Hextra).
    destruct (fold_left _ accounts _) as [nested_params nested_extra].
    simpl in *. apply Forall_app; split; [assumption|].
    constructor; [exact I|assumption].
Qed.

Lemma gen_accounts_typed_dicts (name : string) (accs : list IdlAccountItem) :
  Forall is_typed_dict (gen_accounts upper_camel name accs None).
Proof.
  unfold gen_accounts. simpl.
  assert (forall state, Forall is_typed_dict state.2 ->
            Forall is_typed_dict
              (fold_left (gen_accounts_round upper_camel) accs state).2)
    as Hfold.
  { induction accs as [|a accs IH]; intros state Hstate; simpl;
      [assumption|].
    apply IH, gen_accounts_round_typed_dicts, Hstate. }
  specialize (Hfold ([], []) ltac:(constructor)).
  destruct (fold_left _ accs _) as [params extra]. simpl in *.
  constructor; [exact I|assumption].
Qed.

(** With arguments, the function takes [args] and [accounts], and the module
    assigns [layout]. *)
Lemma with_args_constructor (idl : Idl IdlType IdlTypeDef)
    (imports : list node) (ix : IdlInstruction IdlType) :
  ix_args ix <> [] ->
  exists args_interface layout_text accounts body,
    gen_instruction_contents IdlType IdlTypeDef upper_camel _sighash
      _py_type_from_idl _layout_for_type _field_to_encodable str_StrDict
      idl imports ix
    = imports ++ [args_interface] ++ [Assign "layout" (Text layout_text)]
      ++ accounts
      ++ [ Function (ix_name ix)
             [ TypedParam "args" (_args_interface_name upper_camel (ix_name ix));
               TypedParam "accounts"
                 (_accounts_interface_name upper_camel (ix_name ix)) ]
             body "TransactionInstruction" ].
Proof.
  intros Hargs. unfold gen_instruction_contents.
  destruct (ix_args ix) as [|arg args]; [congruence|].
  do 4 eexists. reflexivity.
Qed.

(** C2, as the code behaves: for an instruction without arguments the
    generated function takes no parameter at all, not even [accounts],
    which its body reads; the body calls [layout.build] although the
    module assigns no [layout]. *)
Theorem no_args_constructor (idl : Idl IdlType IdlTypeDef)
    (imports : list node) (ix : IdlInstruction IdlType) :
  ix_args ix = [] ->
  let accounts :=
    gen_accounts upper_camel
      (_accounts_interface_name upper_camel (ix_name ix)) (ix_accounts ix) None in
  gen_instruction_contents IdlType IdlTypeDef upper_camel _sighash
    _py_type_from_idl _layout_for_type _field_to_encodable str_StrDict
    idl imports ix
  = imports ++ accounts
    ++ [ Function (ix_name ix) []
           [ Assign "keys" (PyList (recurse_accounts (ix_accounts ix) []));
             Assign "identifier" (BytesValue (_sighash (ix_name ix)));
             Assign "encoded_args"
               (Text ("layout.build(" +:+ str_StrDict [] +:+ ")"));
             Assign "data" (Text "identifier + encoded_args");
             Return "TransactionInstruction(data, keys, PROGRAM_ID)" ]
           "TransactionInstruction" ]
  /\ Forall (fun n => ~ assigns "layout" n) accounts.
Proof.
  intros Hargs accounts. split.
  - unfold gen_instruction_contents. rewrite Hargs. reflexivity.
  - eapply Forall_impl; [apply gen_accounts_typed_dicts|].
    intros [] Htd; simpl in *; tauto.
Qed.

End GeneratorFacts.

(** ** The theorems on the example data *)

Lemma decode_checks_discriminator_witness :
  Counter.decode Samples.counter_bytes = Returns Samples.counter.
Proof.
  apply (proj2 (proj2 (decode_checks_discriminator Samples.counter_bytes))).
  - reflexivity.
  - simpl. lia.
Defined.

Lemma decode_short_input_witness :
  Counter.decode [xff; xb0; x04]
  = Raises (AccountInvalidDiscriminator
              "The discriminator for this account is invalid").
Proof.
  apply (decode_short_input [xff; xb0; x04]). simpl. lia.
Defined.

(** A key of three bytes: its text is that of the 32 bytes it pads to, and
    the record comes back on those 32 bytes. *)
Example short_key_text :
  PublicKey.to_str Samples.short_key = "11111111111111111111111111111Ldp".
Proof. vm_compute. reflexivity. Qed.

Lemma from_json_to_json_witness :
  exists r',
    Counter.from_json (Counter.to_json Samples.short_counter) = Returns r'
    /\ Counter.equal r' Samples.short_counter
    /\ PublicKey.key (Counter.authority r')
       = PublicKey.to_bytes (Counter.authority Samples.short_counter)
    /\ (PublicKey.valid (Counter.authority Samples.short_counter) ->
        r' = Samples.short_counter)
    /\ PublicKey.of_str
         (Counter.json_authority (Counter.to_json Samples.short_counter))
       = Returns (Counter.authority r')
    /\ Counter.to_json r' = Counter.to_json Samples.short_counter.
Proof.
  apply (from_json_to_json Samples.short_counter).
  unfold PublicKey.constructible, PublicKey.LENGTH. simpl. lia.
Defined.

Example from_json_to_json_full_key :
  Counter.from_json (Counter.to_json Samples.counter) = Returns Samples.counter.
Proof. vm_compute. reflexivity. Qed.

Example counter_base64_decodes :
  Base64.b64decode Samples.counter_base64 = Returns Samples.counter_bytes.
Proof. vm_compute. reflexivity. Qed.

(** The account held by the system program carries bytes that decode to a
    counter, and [fetch] still refuses it. *)
Lemma fetch_owner_mismatch_witness :
  (bytes_data ← Base64.b64decode Samples.counter_base64;
   Counter.decode bytes_data) = Returns Samples.counter
  /\ Counter.fetch Samples.program_id Base64.b64decode Samples.foreign_conn
       Samples.authority None
     = Raises (ValueError "Account does not belong to this program")
  /\ forall r,
       Counter.fetch Samples.program_id Base64.b64decode Samples.foreign_conn
         Samples.authority None <> Returns r.
Proof.
  split; [vm_compute; reflexivity|].
  apply (fetch_owner_mismatch Samples.program_id Base64.b64decode
           Samples.foreign_conn Samples.authority None
           (Samples.counter_info Samples.system_program)).
  - vm_compute. reflexivity.
  - vm_compute. discriminate.
Defined.

(** The response [[absent, valid]]: instead of [[None, counter]] the call
    raises. *)
Lemma fetch_multiple_absent_raises_witness :
  exists e,
    Counter.fetch_multiple Samples.program_id Base64.b64decode Samples.own_conn
      [inl Samples.program_id; inl Samples.authority] None
    = Raises e.
Proof.
  apply (fetch_multiple_absent_raises Samples.program_id Base64.b64decode
           Samples.own_conn [inl Samples.program_id; inl Samples.authority]
           None [None; Some (Samples.counter_info Samples.program_id)]).
  - vm_compute. reflexivity.
  - simpl. left. reflexivity.
Defined.

Example fetch_multiple_absent_then_valid :
  Counter.fetch_multiple Samples.program_id Base64.b64decode Samples.own_conn
    [inl Samples.program_id; inl Samples.authority] None
  = Raises (TypeError "'NoneType' object is not subscriptable").
Proof. vm_compute. reflexivity. Qed.

Example fetch_multiple_all_valid :
  Counter.fetch_multiple Samples.program_id Base64.b64decode Samples.own_conn
    [inl Samples.authority; inl Samples.authority] None
  = Returns [Some Samples.counter; Some Samples.counter].
Proof. vm_compute. reflexivity. Qed.

Lemma from_tx_error_own_program_raises_witness :
  errors.from_tx_error Samples.program_id string string
    Samples.custom_from_code Samples.anchor_from_code
    {[ "logs" := ["Program log: Instruction: Play"; Samples.failure_log "zz"] ]}
  = Raises (TypeError "'str' object is not callable").
Proof.
  apply (from_tx_error_own_program_raises Samples.program_id string string
           Samples.custom_from_code Samples.anchor_from_code _
           ["Program log: Instruction: Play"] [] (Samples.failure_log "zz")
           "zz").
  - vm_compute. reflexivity.
  - constructor; [vm_compute; reflexivity|constructor].
  - vm_compute. reflexivity.
Defined.

(** A well-formed hexadecimal code fares no better. *)
Example from_tx_error_hex_code :
  errors.from_tx_error Samples.program_id string string
    Samples.custom_from_code Samples.anchor_from_code
    {[ "logs" := [Samples.failure_log "0x1770"] ]}
  = Raises (TypeError "'str' object is not callable").
Proof. vm_compute. reflexivity. Qed.

Example from_tx_error_foreign_program :
  errors.from_tx_error Samples.program_id string string
    Samples.custom_from_code Samples.anchor_from_code
    {[ "logs" := ["Program 11111111111111111111111111111111 failed: custom program error: 0x1770"] ]}
  = Returns None.
Proof. vm_compute. reflexivity. Qed.

Lemma from_code_dispatch_witness :
  errors.from_code string string Samples.custom_from_code
    Samples.anchor_from_code 6000 = Some (inl "TileOutOfBounds")
  /\ errors.from_code string string Samples.custom_from_code
       Samples.anchor_from_code 100 = Some (inr "InstructionMissing")
  /\ errors.from_code string string Samples.custom_from_code
       Samples.anchor_from_code 999999 = None.
Proof.
  pose proof (from_code_dispatch string string Samples.custom_from_code
                Samples.anchor_from_code 6000) as (H6000 & _).
  pose proof (from_code_dispatch string string Samples.custom_from_code
                Samples.anchor_from_code 100) as (_ & H100 & _).
  pose proof (from_code_dispatch string string Samples.custom_from_code
                Samples.anchor_from_code 999999)
    as (_ & _ & _ & _ & _ & _ & Hunknown & _).
  split; [apply H6000; lia|].
  split; [apply H100; lia|].
  apply Hunknown; [lia|reflexivity].
Defined.

Lemma no_args_constructor_witness :
  instructions.gen_instruction_contents unit unit Samples.upper_camel
    Samples.sighash Samples.py_type_from_idl Samples.layout_for_type
    Samples.field_to_encodable Samples.str_StrDict Samples.basic_2 []
    Samples.increment
  = [ instructions.TypedDict "IncrementAccounts"
        [ instructions.TypedParam "counter" "PublicKey";
          instructions.TypedParam "authority" "PublicKey" ];
      instructions.Function "increment" []
        [ instructions.Assign "keys"
            (instructions.PyList
               (instructions.recurse_accounts
                  (instructions.ix_accounts Samples.increment) []));
          instructions.Assign "identifier"
            (instructions.BytesValue [x0b; x12; x68; x09; x68; xae; x3b; x21]);
          instructions.Assign "encoded_args" (instructions.Text "layout.build({})");
          instructions.Assign "data" (instructions.Text "identifier + encoded_args");
          instructions.Return "TransactionInstruction(data, keys, PROGRAM_ID)" ]
        "TransactionInstruction" ].
Proof.
  exact (proj1 (no_args_constructor unit unit Samples.upper_camel
                  Samples.sighash Samples.py_type_from_idl
                  Samples.layout_for_type Samples.field_to_encodable
                  Samples.str_StrDict Samples.basic_2 [] Samples.increment
                  eq_refl)).
Defined.

(** The whole generator on [basic_2]: the module written for [increment]. *)
Example gen_instructions_code_increment :
  exists accounts body,
    instructions.gen_instructions_code unit unit Samples.upper_camel
      Samples.sighash Samples.py_type_from_idl Samples.layout_for_type
      Samples.field_to_encodable Samples.str_StrDict Samples.path_div
      Samples.with_suffix Samples.basic_2 "out/instructions"
      !! "out/instructions/increment.py"
    = Some ([ instructions.Import "typing";
              instructions.FromImport "solana.publickey" ["PublicKey"];
              instructions.FromImport "solana.transaction"
                ["TransactionInstruction"; "AccountMeta"];
              instructions.ImportAs "borsh_construct" "borsh";
              instructions.FromImport "..program_id" ["PROGRAM_ID"];
              instructions.TypedDict "IncrementAccounts" accounts;
              instructions.Function "increment" [] body "TransactionInstruction" ]).
Proof. do 2 eexists. vm_compute. reflexivity. Qed.

(** * Further properties *)

(** ** Fetching, outcome by outcome *)

Section FetchOutcomes.

Variable PROGRAM_ID : PublicKey.t.
Variable b64decode : string -> result (list byte).

Lemma fetch_present (conn : AsyncClient) (address : PublicKey.t)
    (commitment : option Commitment) (info : AccountInfo) :
  get_account_info conn address commitment = Returns (Some info) ->
  Counter.fetch PROGRAM_ID b64decode conn address commitment
  = if decide (owner info ≠ PublicKey.to_str PROGRAM_ID)
    then Raises (ValueError "Account does not belong to this program")
    else
      data0 ← getitem (data info) 0;
      bytes_data ← b64decode data0;
      account ← Counter.decode bytes_data;
      Returns (Some account).
Proof. intros Hinfo. unfold Counter.fetch. now rewrite Hinfo. Qed.

Lemma accepted_iff (info : AccountInfo) (account : Counter.t) :
  (if decide (owner info ≠ PublicKey.to_str PROGRAM_ID)
   then Raises (ValueError "Account does not belong to this program")
   else
     data0 ← getitem (data info) 0;
     bytes_data ← b64decode data0;
     account ← Counter.decode bytes_data;
     Returns account) = Returns account
  <-> yields PROGRAM_ID b64decode info account.
Proof.
  unfold yields, getitem. split.
  - destruct (decide _) as [|Howner]; [discriminate|].
    destruct (data info !! 0%nat) as [text|]; [simpl|discriminate].
    destruct (b64decode text) as [bytes_data|] eqn:Hb64; [simpl|discriminate].
    destruct (Counter.decode bytes_data) as [a|] eqn:Hdecode;
      [simpl|discriminate].
    intros [= ->]. split; [now apply dec_stable|].
    now exists text, bytes_data.
  - intros (Howner & text & bytes_data & Htext & Hb64 & Hdecode).
    rewrite decide_False by (intros Hne; now apply Hne).
    rewrite Htext. simpl. rewrite Hb64. simpl. now rewrite Hdecode.
Qed.

(** X1: [fetch] returns a record exactly when the connection reports an
    account that is owned by the program and whose first data entry is
    base64 text of bytes that decode to that record. *)
Theorem fetch_returns_record (conn : AsyncClient) (address : PublicKey.t)
    (commitment : option Commitment) (account : Counter.t) :
  Counter.fetch PROGRAM_ID b64decode conn address commitment
  = Returns (Some account)
  <-> exists info,
        get_account_info conn address commitment = Returns (Some info)
        /\ yields PROGRAM_ID b64decode info account.
Proof.
  split.
  - destruct (get_account_info conn address commitment) as [[info|]|e]
      eqn:Hinfo.
    + rewrite (fetch_present _ _ _ _ Hinfo). intros Hfetch.
      exists info. split; [reflexivity|]. apply accepted_iff.
      destruct (decide _); [discriminate|].
      destruct (getitem _ _) as [text|]; [simpl in *|discriminate].
      destruct (b64decode text) as [bytes_data|]; [simpl in *|discriminate].
      destruct (Counter.decode bytes_data); [simpl in *|discriminate].
      congruence.
    + unfold Counter.fetch. rewrite Hinfo. discriminate.
    + unfold Counter.fetch. rewrite Hinfo. discriminate.
  - intros (info & Hinfo & Hyields).
    rewrite (fetch_present _ _ _ _ Hinfo).
    apply accepted_iff in Hyields.
    destruct (decide _); [discriminate|].
    destruct (getitem _ _) as [text|]; [simpl in *|discriminate].
    destruct (b64decode text) as [bytes_data|]; [simpl in *|discriminate].
    destruct (Counter.decode bytes_data); [simpl in *|discriminate].
    congruence.
Qed.

(** X2: [fetch] returns [None] exactly when the connection reports no
    account at the address; an account that exists is never answered with
    [None]. *)
Theorem fetch_returns_none (conn : AsyncClient) (address : PublicKey.t)
    (commitment : option Commitment) :
  Counter.fetch PROGRAM_ID b64decode conn address commitment = Returns None
  <-> get_account_info conn address commitment = Returns None.
Proof.
  split.
  - destruct (get_account_info conn address commitment) as [[info|]|e]
      eqn:Hinfo; [|reflexivity|].
    + rewrite (fetch_present _ _ _ _ Hinfo).
      destruct (decide _); [discriminate|].
      destruct (getitem _ _) as [text|]; [simpl|discriminate].
      destruct (b64decode text) as [bytes_data|]; [simpl|discriminate].
      destruct (Counter.decode bytes_data); discriminate.
    + unfold Counter.fetch. rewrite Hinfo. discriminate.
  - intros Hinfo. unfold Counter.fetch. now rewrite Hinfo.
Qed.

Lemma fetch_multiple_body_iff (res res' : list (option Counter.t))
    (info : option AccountInfo) :
  Counter.fetch_multiple_body PROGRAM_ID b64decode res info = Returns res'
  <-> exists i account,
        info = Some i /\ yields PROGRAM_ID b64decode i account
        /\ res' = res ++ [Some account].
Proof.
  split.
  - destruct info as [i|]; [|discriminate].
    unfold Counter.fetch_multiple_body. simpl. intros Hbody.
    assert (exists account,
              yields PROGRAM_ID b64decode i account
              /\ res' = res ++ [Some account]) as (account & Hy & ->).
    { destruct (decide _) as [|Howner] eqn:Hdec; [discriminate|].
      destruct (getitem (data i) 0) as [text|] eqn:Htext;
        [simpl in *|discriminate].
      destruct (b64decode text) as [bytes_data|] eqn:Hb64;
        [simpl in *|discriminate].
      destruct (Counter.decode bytes_data) as [account|] eqn:Hdecode;
        [simpl in *|discriminate].
      exists account. split; [|congruence].
      apply accepted_iff. rewrite Hdec, Htext. simpl. rewrite Hb64. simpl.
      now rewrite Hdecode. }
    now exists i, account.
  - intros (i & account & -> & Hy & ->).
    apply accepted_iff in Hy.
    unfold Counter.fetch_multiple_body. simpl.
    destruct (decide _); [discriminate|].
    destruct (getitem _ _) as [text|]; [simpl in *|discriminate].
    destruct (b64decode text) as [bytes_data|]; [simpl in *|discriminate].
    destruct (Counter.decode bytes_data); [simpl in *|discriminate].
    congruence.
Qed.

Lemma for_each_body_iff (infos : list (option AccountInfo)) :
  forall res res',
    for_each (Counter.fetch_multiple_body PROGRAM_ID b64decode) infos res
    = Returns res'
    <-> exists tail,
          res' = res ++ tail
          /\ Forall2 (fun info r =>
                        exists i account,
                          info = Some i /\ r = Some account
                          /\ yields PROGRAM_ID b64decode i account)
               infos tail.
Proof.
  induction infos as [|info infos IH]; intros res res'; simpl.
  - split.
    + intros [= <-]. exists []. rewrite app_nil_r. split; [reflexivity|constructor].
    + intros (tail & -> & Htail). inversion Htail. now rewrite app_nil_r.
  - split.
    + destruct (Counter.fetch_multiple_body PROGRAM_ID b64decode res info)
        as [res1|] eqn:Hbody; [simpl|discriminate].
      apply fetch_multiple_body_iff in Hbody as (i & account & -> & Hy & ->).
      intros Hrest. apply IH in Hrest as (tail & -> & Htail).
      exists (Some account :: tail). rewrite <- app_assoc.
      split; [reflexivity|]. constructor; [|assumption].
      now exists i, account.
    + intros (tail & -> & Htail).
      inversion Htail as [|? r ? tail' (i & account & -> & -> & Hy) Hrest];
        subst.
      rewrite (proj2 (fetch_multiple_body_iff res _ (Some i))
                 (ex_intro _ i (ex_intro _ account
                    (conj eq_refl (conj Hy eq_refl))))).
      simpl. apply IH. exists tail'. now rewrite <- app_assoc.
Qed.

(** X3: [fetch_multiple] returns a list exactly when every reported element
    is an account [fetch] would accept; the list then holds the decoded
    records, one per element and in the order of the response. *)
Theorem fetch_multiple_returns (conn : AsyncClient)
    (addresses : list Address) (commitment : option Commitment)
    (infos : list (option AccountInfo)) (res : list (option Counter.t)) :
  get_multiple_accounts conn addresses commitment = Returns infos ->
  (Counter.fetch_multiple PROGRAM_ID b64decode conn addresses commitment
   = Returns res
   <-> Forall2 (fun info r =>
                  exists i account,
                    info = Some i /\ r = Some account
                    /\ yields PROGRAM_ID b64decode i account)
         infos res).
Proof.
  intros Hinfos. unfold Counter.fetch_multiple. rewrite Hinfos. simpl.
  rewrite for_each_body_iff. split.
  - now intros (tail & -> & Htail).
  - intros Hres. now exists res.
Qed.

Lemma for_each_accepted (good : list AccountInfo) (accounts : list Counter.t) :
  Forall2 (yields PROGRAM_ID b64decode) good accounts ->
  forall rest res,
    for_each (Counter.fetch_multiple_body PROGRAM_ID b64decode)
      (map Some good ++ rest) res
    = for_each (Counter.fetch_multiple_body PROGRAM_ID b64decode)
        rest (res ++ map Some accounts).
Proof.
  induction 1 as [|i account good accounts Hy _ IH]; intros rest res; simpl.
  - now rewrite app_nil_r.
  - rewrite (proj2 (fetch_multiple_body_iff res _ (Some i))
               (ex_intro _ i (ex_intro _ account
                  (conj eq_refl (conj Hy eq_refl))))).
    simpl. rewrite IH. now rewrite <- app_assoc.
Qed.

(** What [fetch] does with an account, the loop body does too: it raises
    what [fetch] raises for that account. *)
Lemma fetch_multiple_body_raises (res : list (option Counter.t))
    (info : AccountInfo) (commitment : option Commitment) (e : exn) :
  Counter.fetch_multiple_body PROGRAM_ID b64decode res (Some info) = Raises e
  <-> forall address,
        Counter.fetch PROGRAM_ID b64decode (answering (Some info)) address
          commitment
        = Raises e.
Proof.
  assert (forall address,
            Counter.fetch PROGRAM_ID b64decode (answering (Some info)) address
              commitment = Raises e
            <-> Counter.fetch_multiple_body PROGRAM_ID b64decode res
                  (Some info) = Raises e) as Hsame.
  { intros address.
    rewrite (fetch_present (answering (Some info)) address commitment info
               eq_refl).
    unfold Counter.fetch_multiple_body. simpl.
    destruct (decide _); [split; now intros [= <-]|].
    destruct (getitem _ _) as [text|]; simpl; [|split; now intros [= <-]].
    destruct (b64decode text) as [bytes_data|]; simpl;
      [|split; now intros [= <-]].
    destruct (Counter.decode bytes_data); simpl;
      [split; discriminate|split; now intros [= <-]]. }
  split.
  - intros Hbody address. now apply Hsame.
  - intros Hfetch. apply (Hsame (PublicKey.mk [])), Hfetch.
Qed.

Lemma fetch_multiple_body_fails (res : list (option Counter.t))
    (bad : option AccountInfo) (commitment : option Commitment) (e : exn) :
  Counter.fetch_multiple_body PROGRAM_ID b64decode res bad = Raises e
  <-> fails_with PROGRAM_ID b64decode commitment bad e.
Proof.
  destruct bad as [info|]; [apply fetch_multiple_body_raises|].
  simpl. split; [now intros [= <-]|now intros ->].
Qed.

Lemma for_each_raises (commitment : option Commitment) (e : exn)
    (infos : list (option AccountInfo)) :
  forall res,
    for_each (Counter.fetch_multiple_body PROGRAM_ID b64decode) infos res
    = Raises e ->
    exists good accounts bad rest,
      infos = map Some good ++ bad :: rest
      /\ Forall2 (yields PROGRAM_ID b64decode) good accounts
      /\ fails_with PROGRAM_ID b64decode commitment bad e.
Proof.
  induction infos as [|info infos IH]; intros res; simpl; [discriminate|].
  destruct (Counter.fetch_multiple_body PROGRAM_ID b64decode res info)
    as [res1|e1] eqn:Hbody; simpl.
  - apply fetch_multiple_body_iff in Hbody as (i & account & -> & Hy & ->).
    intros Hrest.
    apply IH in Hrest as (good & accounts & bad & rest & -> & Hgood & Hbad).
    exists (i :: good), (account :: accounts), bad, rest.
    split; [reflexivity|]. split; [now constructor|assumption].
  - intros [= <-]. exists [], [], info, infos.
    split; [reflexivity|]. split; [constructor|].
    now apply (fetch_multiple_body_fails res).
Qed.

(** X4: given the response, [fetch_multiple] raises exactly when the
    response has a first element that is absent or is an account for which
    [fetch] raises, every element before it being an account [fetch]
    accepts. The exception is then the [TypeError] of subscripting [None]
    for an absent element and the exception of [fetch] for an account; the
    elements after it are not looked at. *)
Theorem fetch_multiple_first_failure (conn : AsyncClient)
    (addresses : list Address) (commitment : option Commitment)
    (infos : list (option AccountInfo)) (e : exn) :
  get_multiple_accounts conn addresses commitment = Returns infos ->
  (Counter.fetch_multiple PROGRAM_ID b64decode conn addresses commitment
   = Raises e
   <-> exists good accounts bad rest,
         infos = map Some good ++ bad :: rest
         /\ Forall2 (yields PROGRAM_ID b64decode) good accounts
         /\ fails_with PROGRAM_ID b64decode commitment bad e).
Proof.
  intros Hinfos. unfold Counter.fetch_multiple. rewrite Hinfos. simpl.
  split.
  - apply for_each_raises.
  - intros (good & accounts & bad & rest & -> & Hgood & Hbad).
    rewrite (for_each_accepted _ _ Hgood). simpl.
    now rewrite (proj2 (fetch_multiple_body_fails _ bad commitment e) Hbad).
Qed.

End FetchOutcomes.

(** ** Decoding, outcome by outcome *)

Lemma from_digits_below (b : Z) (l : list Z) :
  2 <= b -> Forall (digit b) l -> from_digits b l < b ^ Z.of_nat (length l).
Proof.
  intros Hb. induction l as [|d l IH] using rev_ind; intros Hl;
    [reflexivity|].
  apply Forall_app in Hl as [Hl Hd]. inversion Hd as [|? ? [? ?] _]; subst.
  rewrite from_digits_snoc, length_app, Nat2Z.inj_add, Z.pow_add_r by lia.
  specialize (IH Hl). change (Z.of_nat (length [d])) with 1.
  rewrite Z.pow_1_r. nia.
Qed.

Lemma int_from_little_range (bs : list byte) :
  0 <= borsh.int_from_little bs < 256 ^ Z.of_nat (length bs).
Proof.
  unfold borsh.int_from_little.
  assert (Forall (digit 256) (rev (map byte_to_Z bs))) as Hdigits
    by apply Forall_rev, Base58Facts.bytes_are_digits.
  split.
  - apply from_digits_nonneg; [lia|assumption].
  - replace (length bs) with (length (rev (map byte_to_Z bs)))
      by now rewrite length_rev, length_map.
    apply from_digits_below; [lia|assumption].
Qed.

Lemma decode_spec (data : list byte) :
  Counter.decode data
  = if decide (take 8 data ≠ Counter.discriminator)
    then Raises (AccountInvalidDiscriminator
                   "The discriminator for this account is invalid")
    else if decide (length data < 48)%nat then Raises StreamError
    else Returns (Counter.mk (PublicKey.mk (take 32 (drop 8 data)))
                    (borsh.int_from_little (take 8 (drop 40 data)))).
Proof.
  unfold Counter.decode, ACCOUNT_DISCRIMINATOR_SIZE.
  destruct (decide (take 8 data ≠ Counter.discriminator)); [reflexivity|].
  rewrite layout_parse_spec, length_drop, drop_drop.
  destruct (decide (length data < 48)%nat).
  - now rewrite decide_True by lia.
  - now rewrite decide_False by lia.
Qed.

(** X5: bytes that carry the discriminator but stop short of the 48 bytes
    of a counter account make [decode] raise [StreamError]; nothing is
    filled in for the missing bytes. *)
Theorem decode_truncated (data : list byte) :
  take 8 data = Counter.discriminator ->
  (length data < 48)%nat ->
  Counter.decode data = Raises StreamError.
Proof.
  intros Hprefix Hshort. rewrite decode_spec.
  rewrite decide_False by (intros Hne; now apply Hne).
  now rewrite decide_True by assumption.
Qed.

(** X6: [decode] looks at the first 48 bytes only: bytes appended to a
    buffer of at least that length change neither the record nor the
    error. *)
Theorem decode_ignores_trailing (data trailing : list byte) :
  (48 <= length data)%nat ->
  Counter.decode (data ++ trailing) = Counter.decode data.
Proof.
  intros Hlen. rewrite !decode_spec.
  rewrite (take_app_le data trailing 8) by lia.
  destruct (decide (take 8 data ≠ Counter.discriminator)); [reflexivity|].
  rewrite decide_False by (rewrite length_app; lia).
  rewrite decide_False by lia.
  rewrite !(drop_app_le data trailing) by lia.
  rewrite !take_app_le by (rewrite length_drop; lia).
  reflexivity.
Qed.

(** X7: a record [decode] returns comes from a buffer of at least 48 bytes
    that starts with the discriminator; its authority is the 32 bytes after
    it, a well-formed public key, and its count is the unsigned 64-bit
    little-endian number in the next 8 bytes. *)
Theorem decode_returns_well_formed (data : list byte) (r : Counter.t) :
  Counter.decode data = Returns r ->
  take 8 data = Counter.discriminator
  /\ (48 <= length data)%nat
  /\ PublicKey.key (Counter.authority r) = take 32 (drop 8 data)
  /\ PublicKey.valid (Counter.authority r)
  /\ Counter.count r = borsh.int_from_little (take 8 (drop 40 data))
  /\ 0 <= Counter.count r < 2 ^ 64.
Proof.
  rewrite decode_spec.
  destruct (decide (take 8 data ≠ Counter.discriminator)) as [|Hprefix];
    [discriminate|].
  destruct (decide (length data < 48)%nat) as [|Hlen]; [discriminate|].
  intros [= <-]. simpl.
  split; [now apply dec_stable|]. split; [lia|]. split; [reflexivity|].
  split; [unfold PublicKey.valid, PublicKey.LENGTH; simpl;
          rewrite length_take, length_drop; lia|].
  split; [reflexivity|].
  pose proof (int_from_little_range (take 8 (drop 40 data))) as Hrange.
  rewrite length_take, length_drop in Hrange.
  replace (8 `min` (length data - 40))%nat with 8%nat in Hrange by lia.
  exact Hrange.
Qed.

(** X8: every record [decode] returns survives the trip through its JSON
    form. *)
Theorem decode_json_round_trip (data : list byte) (r : Counter.t) :
  Counter.decode data = Returns r ->
  Counter.from_json (Counter.to_json r) = Returns r.
Proof.
  rewrite decode_spec.
  destruct (decide (take 8 data ≠ Counter.discriminator)); [discriminate|].
  destruct (decide (length data < 48)%nat) as [|Hlen]; [discriminate|].
  intros [= <-]. unfold Counter.from_json, Counter.to_json. simpl.
  rewrite PublicKey_of_str_to_str; [reflexivity|].
  unfold PublicKey.valid, PublicKey.LENGTH. simpl.
  rewrite length_take, length_drop. lia.
Qed.

(** X9: [to_json] tells records with well-formed authorities apart: two
    such records with the same JSON form are the same record. *)
Theorem to_json_injective (r1 r2 : Counter.t) :
  PublicKey.valid (Counter.authority r1) ->
  PublicKey.valid (Counter.authority r2) ->
  Counter.to_json r1 = Counter.to_json r2 ->
  r1 = r2.
Proof.
  intros H1 H2 Hjson.
  destruct r1 as [a1 c1], r2 as [a2 c2]. simpl in *.
  injection Hjson as Hauthority Hcount.
  apply PublicKey_of_str_to_str in H1, H2.
  rewrite Hauthority in H1. congruence.
Qed.

(** ** Base58 text is canonical *)

Lemma byte_to_of_Z (d : Z) : digit 256 d -> byte_to_Z (byte_of_Z d) = d.
Proof.
  intros [Hlo Hhi]. unfold byte_to_Z, byte_of_Z.
  pose proof (Byte.to_of_N_option_map (Z.to_N d)) as Hmap.
  replace (Z.to_N d <=? 255)%N with true in Hmap by (symmetry; apply N.leb_le; lia).
  destruct (Byte.of_N (Z.to_N d)) as [x|]; [|discriminate].
  simpl in Hmap. injection Hmap as ->. lia.
Qed.

Lemma index_from_spec (alphabet : list ascii) (c : ascii) :
  forall n d,
    index_from n c alphabet = Some d ->
    n <= d < n + Z.of_nat (length alphabet)
    /\ nth (Z.to_nat (d - n)) alphabet "1"%char = c.
Proof.
  induction alphabet as [|a alphabet IH]; intros n d; simpl; [discriminate|].
  destruct (Ascii.eqb_spec a c) as [->|Hne].
  - intros [= <-]. rewrite Z.sub_diag. split; [lia|reflexivity].
  - intros Hrest. apply IH in Hrest as [Hrange Hnth].
    split; [lia|].
    replace (Z.to_nat (d - n)) with (S (Z.to_nat (d - (n + 1)))) by lia.
    exact Hnth.
Qed.

Lemma alphabet_index_spec (c : ascii) (d : Z) :
  Base58.alphabet_index c = Some d ->
  digit 58 d /\ Base58.alphabet_at d = c.
Proof.
  intros Hindex. apply index_from_spec in Hindex as [Hrange Hnth].
  change (Z.of_nat (length Base58.BITCOIN_ALPHABET)) with 58 in Hrange.
  rewrite Z.sub_0_r in Hnth. split; [exact Hrange|exact Hnth].
Qed.

Lemma b58decode_int_from_returns (v : list ascii) :
  forall decimal acc,
    Base58.b58decode_int_from decimal v = Returns acc ->
    exists ds,
      Forall (digit 58) ds
      /\ map Base58.alphabet_at ds = v
      /\ acc = fold_left (fun a d => a * 58 + d) ds decimal.
Proof.
  induction v as [|c v IH]; intros decimal acc; simpl.
  - intros [= <-]. now exists [].
  - destruct (Base58.alphabet_index c) as [d|] eqn:Hc; [|discriminate].
    apply alphabet_index_spec in Hc as [Hd Hat].
    intros Hrest. apply IH in Hrest as (ds & Hds & Hv & Hacc).
    exists (d :: ds). simpl.
    split; [now constructor|]. split; [congruence|assumption].
Qed.

Lemma ones_prefix (pre : list ascii) :
  Forall (fun c => Base58.is_one_char c = true) pre ->
  pre = repeat "1"%char (length pre).
Proof.
  induction 1 as [|c pre Hc _ IH]; simpl; [reflexivity|].
  apply Ascii.eqb_eq in Hc. congruence.
Qed.

Lemma digits_to_bytes_head (ds : list Z) :
  Forall (digit 256) ds -> no_leading_zero ds ->
  head_fails Base58.is_zero_byte (map byte_of_Z ds).
Proof.
  destruct 1 as [|d ds Hd _]; simpl; [trivial|].
  intros Hnz. unfold Base58.is_zero_byte.
  destruct (Byte.eqb (byte_of_Z d) x00) eqn:E; [|reflexivity].
  apply Byte.byte_dec_bl in E. apply byte_to_of_Z in Hd.
  rewrite E in Hd. now destruct Hnz.
Qed.

Lemma map_byte_to_of_Z (ds : list Z) :
  Forall (digit 256) ds -> map byte_to_Z (map byte_of_Z ds) = ds.
Proof.
  induction 1 as [|d ds Hd _ IH]; simpl; [reflexivity|].
  now rewrite byte_to_of_Z, IH.
Qed.

Lemma zeros_are_zero (n : nat) :
  Forall (fun b => Base58.is_zero_byte b = true) (repeat x00 n).
Proof. induction n; simpl; constructor; [reflexivity|assumption]. Qed.

(** Encoding what [b58decode] returns gives back the text: accepted text
    is canonical. *)
Lemma b58encode_b58decode (v : list ascii) (k : list byte) :
  Base58.b58decode v = Returns k ->
  Base58.b58encode k = v.
Proof.
  unfold Base58.b58decode, Base58.b58decode_int.
  destruct (Base58Facts.lstrip_split Base58.is_one_char v)
    as (pre & Hv & Hpre).
  set (v' := lstrip Base58.is_one_char v) in *.
  destruct (Base58.b58decode_int_from 0 v') as [acc|] eqn:Hint;
    [|discriminate].
  apply b58decode_int_from_returns in Hint as (ds & Hds & Hmap & Hacc).
  change (fold_left _ ds 0) with (from_digits 58 ds) in Hacc.
  cbn [mbind result_bind]. intros [= <-].
  assert (no_leading_zero ds) as Hnz.
  { pose proof (Base58Facts.lstrip_head Base58.is_one_char v) as Hhead.
    fold v' in Hhead. rewrite <- Hmap in Hhead.
    destruct ds as [|d ds']; [exact I|]. simpl in *.
    intros ->. discriminate. }
  assert (0 <= acc) as Hnonneg
    by (subst acc; apply from_digits_nonneg; [lia|assumption]).
  assert (Forall (digit 256) (int_to_digits 256 acc)) as Hbytes
    by (apply to_digits_range; lia).
  assert (no_leading_zero (int_to_digits 256 acc)) as Hbnz
    by (apply to_digits_no_leading_zero; [lia|apply enough_fuel_spec; lia]).
  unfold Base58.b58encode, Base58.b58encode_int.
  rewrite Base58Facts.lstrip_app;
    [|apply zeros_are_zero|now apply digits_to_bytes_head].
  rewrite length_app, repeat_length.
  replace (length v - length v' + _ - _)%nat
    with (length v - length v')%nat by lia.
  rewrite map_byte_to_of_Z by assumption.
  rewrite from_int_to_digits by lia.
  rewrite Hacc, int_to_from_digits by (lia || assumption).
  rewrite Hmap.
  assert (length v = (length pre + length v')%nat) as Hlen
    by (rewrite Hv at 1; apply length_app).
  replace (length v - length v')%nat with (length pre) by lia.
  rewrite <- ones_prefix by assumption. now symmetry.
Qed.

Lemma b58decode_raises (v : list ascii) (e : exn) :
  Base58.b58decode v = Raises e -> exists msg, e = ValueError msg.
Proof.
  unfold Base58.b58decode, Base58.b58decode_int.
  generalize (lstrip Base58.is_one_char v).
  intros w.
  assert (forall decimal,
            Base58.b58decode_int_from decimal w = Raises e ->
            exists msg, e = ValueError msg) as Hint.
  { induction w as [|c w IH]; intros decimal; simpl; [discriminate|].
    destruct (Base58.alphabet_index c); [apply IH|].
    intros [= <-]. eauto. }
  destruct (Base58.b58decode_int_from 0 w) eqn:E; [discriminate|].
  cbn [mbind result_bind]. intros [= <-]. now apply (Hint 0).
Qed.

(** ** JSON forms *)

(** X10: when [from_json] accepts a JSON form, the record it returns has a
    32-byte authority and the count of the form, and [to_json] turns it
    back into that very form: the forms [from_json] accepts are the
    canonical ones. *)
Theorem to_json_from_json (obj : Counter.CounterJSON) (r : Counter.t) :
  Counter.from_json obj = Returns r ->
  PublicKey.valid (Counter.authority r)
  /\ Counter.count r = Counter.json_count obj
  /\ Counter.to_json r = obj.
Proof.
  unfold Counter.from_json, PublicKey.of_str.
  destruct (Base58.b58decode _) as [k|e] eqn:Hdecode.
  - destruct (decide (length k ≠ PublicKey.LENGTH)) as [|Hlen];
      [discriminate|].
    cbn [mbind result_bind]. intros [= <-].
    apply dec_stable in Hlen.
    split; [exact Hlen|]. split; [reflexivity|].
    unfold Counter.to_json, PublicKey.to_str. simpl.
    rewrite (to_bytes_valid (PublicKey.mk k)) by exact Hlen. simpl.
    rewrite (b58encode_b58decode _ _ Hdecode).
    rewrite string_of_list_ascii_of_string. now destruct obj.
  - destruct e; discriminate.
Qed.

(** X11: [from_json] raises exactly when the authority text is not the
    base58 text of 32 bytes, be it for a character outside the alphabet,
    whitespace included, or for another length; the exception is then the
    [ValueError] of an invalid public key, and no other. *)
Theorem from_json_raises (obj : Counter.CounterJSON) :
  (forall e, Counter.from_json obj = Raises e ->
             e = ValueError "invalid public key input:")
  /\ ((exists e, Counter.from_json obj = Raises e)
      <-> ~ exists k,
            Base58.b58decode (list_ascii_of_string (Counter.json_authority obj))
            = Returns k
            /\ length k = PublicKey.LENGTH).
Proof.
  unfold Counter.from_json, PublicKey.of_str.
  destruct (Base58.b58decode _) as [k|e'] eqn:Hdecode.
  - destruct (decide (length k ≠ PublicKey.LENGTH)) as [Hlen|Hlen];
      cbn [mbind result_bind].
    + split; [now intros e [= <-]|]. split; [|eauto].
      intros _ (k' & [= <-] & Hk). contradiction.
    + apply dec_stable in Hlen. split; [discriminate|]. split.
      * intros [e He]. discriminate.
      * intros Hno. destruct Hno. eauto.
  - apply b58decode_raises in Hdecode as [msg ->].
    cbn [mbind result_bind]. split; [now intros e [= <-]|].
    split; [|eauto]. intros _ (k & Hk & _). discriminate.
Qed.

(** ** Log scanning, outcome by outcome *)

Section ErrorOutcomes.

Variable PROGRAM_ID : PublicKey.t.
Variables CustomError AnchorError : Type.
Variable custom_from_code : Z -> option CustomError.
Variable anchor_from_code : Z -> option AnchorError.

Local Abbreviation from_tx_error :=
  (errors.from_tx_error PROGRAM_ID CustomError AnchorError
     custom_from_code anchor_from_code).

(** X13: whatever the input, [from_tx_error] returns [None] or raises one
    of two exceptions; it never returns an error variant, and [from_code]
    is never reached. *)
Theorem from_tx_error_outcomes (error : gmap string (list string)) :
  from_tx_error error = Returns None
  \/ from_tx_error error = Raises (UnboundLocalError "first_match")
  \/ from_tx_error error = Raises (TypeError "'str' object is not callable").
Proof.
  unfold errors.from_tx_error.
  destruct (error !! "logs") as [logs|]; [|now left].
  destruct (errors.scan_logs logs None) as [[[pid code]|]|]; simpl.
  - destruct (decide _); [now left|right; now right].
  - now left.
  - right. now left.
Qed.

(** X14: [from_tx_error] returns [None] when the input has no [logs] key,
    and when its logs are not empty and none of the lines matches. *)
Theorem from_tx_error_unmatched (error : gmap string (list string)) :
  error !! "logs" = None
  \/ (exists logs,
        error !! "logs" = Some logs /\ logs <> []
        /\ Forall (fun l => errors.error_re_match l = None) logs) ->
  from_tx_error error = Returns None.
Proof.
  intros [Hmissing|(logs & Hlogs & Hne & Hno)].
  - now apply from_tx_error_without_logs.
  - now apply (from_tx_error_no_match _ _ _ _ _ _ logs).
Qed.

(** X15: when the first matching line names another program,
    [from_tx_error] returns [None], whatever follows that line, a failure
    of this program included. *)
Theorem from_tx_error_other_program (error : gmap string (list string))
    (before after : list string) (logline program_id_raw code_raw : string) :
  error !! "logs" = Some (before ++ logline :: after) ->
  Forall (fun l => errors.error_re_match l = None) before ->
  errors.error_re_match logline = Some (program_id_raw, code_raw) ->
  program_id_raw ≠ PublicKey.to_str PROGRAM_ID ->
  from_tx_error error = Returns None.
Proof.
  intros Hlogs Hbefore Hline Hforeign. unfold errors.from_tx_error.
  rewrite Hlogs, (scan_logs_first_match _ _ _ _ Hbefore Hline). simpl.
  now rewrite decide_True by assumption.
Qed.

(** X16: only the first matching line counts: the lines before it, which
    do not match, and all the lines after it leave the outcome what it is
    for that line alone. *)
Theorem from_tx_error_first_match_only (error : gmap string (list string))
    (before after : list string) (logline : string) :
  Forall (fun l => errors.error_re_match l = None) before ->
  errors.error_re_match logline <> None ->
  from_tx_error (<["logs" := before ++ logline :: after]> error)
  = from_tx_error (<["logs" := [logline]]> error).
Proof.
  intros Hbefore Hline.
  destruct (errors.error_re_match logline) as [groups|] eqn:Hmatch;
    [|congruence].
  unfold errors.from_tx_error. rewrite !lookup_insert_eq.
  rewrite (scan_logs_first_match _ _ _ _ Hbefore Hmatch).
  now rewrite (scan_logs_first_match [] [] _ _ (Forall_nil_2 _) Hmatch).
Qed.

End ErrorOutcomes.

(** ** Account interfaces *)

Section InterfaceFacts.

Import instructions.

Variable IdlType : Type.
Variable IdlTypeDef : Type.
Variable upper_camel : string -> string.
Variable _sighash : string -> list byte.
Variable _py_type_from_idl : Idl IdlType IdlTypeDef -> IdlType -> string.
Variable _layout_for_type : IdlType -> string -> string.
Variable _field_to_encodable :
  Idl IdlType IdlTypeDef -> IdlField IdlType -> string -> string -> string.
Variable str_StrDict : list str_dict_entry -> string.
Variable path_div : Path -> string -> Path.
Variable with_suffix : Path -> string -> Path.

Local Abbreviation round := (gen_accounts_round upper_camel).
Local Abbreviation param := (account_param upper_camel).
Local Abbreviation dict := (group_dict upper_camel).
Local Abbreviation round_keeps_and_adds :=
  (instructions.round_keeps_and_adds upper_camel).
Local Abbreviation contents :=
  (gen_instruction_contents IdlType IdlTypeDef upper_camel _sighash
     _py_type_from_idl _layout_for_type _field_to_encodable str_StrDict).

Lemma round_params (acc : IdlAccountItem) (params : list typed_param)
    (extra : list node) :
  (round (params, extra) acc).1 = params ++ [param acc].
Proof.
  destruct acc as [name is_mut is_signer|name members]; simpl; [reflexivity|].
  now destruct (fold_left _ members _).
Qed.

Lemma fold_params (accs : list IdlAccountItem) :
  forall state,
    (fold_left round accs state).1 = state.1 ++ map param accs.
Proof.
  induction accs as [|acc accs IH]; intros [params extra]; simpl.
  - now rewrite app_nil_r.
  - rewrite IH. destruct (round (params, extra) acc) as [params' extra'] eqn:E.
    pose proof (round_params acc params extra) as Hp. rewrite E in Hp.
    simpl in *. now rewrite Hp, <- app_assoc.
Qed.

(** X17: the first interface [gen_accounts] emits is the one asked for,
    with one parameter per account item in declaration order: a
    [PublicKey] for a leaf, the group's [...Nested] interface for a group;
    everything after it is a [TypedDict] too. *)
Theorem gen_accounts_interface (name : string) (accs : list IdlAccountItem) :
  exists nested,
    gen_accounts upper_camel name accs None
    = TypedDict name (map param accs) :: nested
    /\ Forall is_typed_dict nested.
Proof.
  pose proof (gen_accounts_typed_dicts upper_camel name accs) as Hall.
  unfold gen_accounts in *. simpl in *.
  pose proof (fold_params accs ([], [])) as Hparams.
  destruct (fold_left round accs ([], [])) as [params nested].
  simpl in Hparams. subst params. exists nested.
  split; [reflexivity|]. now inversion Hall.
Qed.

Lemma gen_accounts_head (name : string) (accs : list IdlAccountItem) :
  exists params nested,
    gen_accounts upper_camel name accs None = TypedDict name params :: nested.
Proof.
  unfold gen_accounts. simpl.
  destruct (fold_left round accs ([], [])) as [params nested]. eauto.
Qed.

Lemma fold_keeps_and_adds (accs : list IdlAccountItem) :
  Forall round_keeps_and_adds accs ->
  forall state,
    incl state.2 (fold_left round accs state).2
    /\ forall g, In g (flat_map groups_of accs) ->
                 In (dict g) (fold_left round accs state).2.
Proof.
  induction 1 as [|acc accs Hacc _ IH]; intros state; simpl.
  - split; [apply incl_refl|]. intros g [].
  - destruct (Hacc state) as [Hkeep Hadd].
    destruct (IH (round state acc)) as [Hkeep' Hadd'].
    split; [eapply incl_tran; eassumption|].
    intros g Hg. apply in_app_or in Hg as [Hg|Hg].
    + apply Hkeep', Hadd, Hg.
    + apply Hadd', Hg.
Qed.

Lemma round_keeps_and_adds_all (acc : IdlAccountItem) :
  round_keeps_and_adds acc.
Proof.
  induction acc as [name is_mut is_signer|name members IH]
    using IdlAccountItem_members_ind; intros [params extra].
  - split; [apply incl_refl|]. intros g [].
  - pose proof (fold_keeps_and_adds members IH ([], extra)) as [Hkeep Hadd].
    pose proof (fold_params members ([], extra)) as Hparams.
    simpl in *.
    destruct (fold_left round members ([], extra))
      as [nested_params nested_extra].
    simpl in *. subst nested_params. split.
    + apply incl_appl, incl_refl.
    + intros g [<-|Hg]; apply in_or_app; right.
      * left. reflexivity.
      * right. apply Hadd, Hg.
Qed.

(** X18: every group of the account tree, at any depth, has its
    [...Nested] interface among the emitted ones, with one parameter per
    member of the group. *)
Theorem gen_accounts_groups (name : string) (accs : list IdlAccountItem)
    (group : string * list IdlAccountItem) :
  In group (flat_map groups_of accs) ->
  In (TypedDict (upper_camel group.1 +:+ "Nested") (map param group.2))
     (gen_accounts upper_camel name accs None).
Proof.
  intros Hgroup.
  assert (Forall round_keeps_and_adds accs) as Hall
    by (apply List.Forall_forall; intros acc _; apply round_keeps_and_adds_all).
  destruct (fold_keeps_and_adds accs Hall ([], [])) as [_ Hadd].
  unfold gen_accounts. simpl.
  specialize (Hadd group Hgroup).
  destruct (fold_left round accs ([], [])) as [params nested].
  right. exact Hadd.
Qed.

Lemma fold_leaves (members : list IdlAccountItem) :
  Forall (fun m => is_group m = false) members ->
  forall state, (fold_left round members state).2 = state.2.
Proof.
  induction 1 as [|m members Hm _ IH]; intros [params extra]; simpl;
    [reflexivity|].
  rewrite IH. now destruct m.
Qed.

Lemma fold_shallow_length (accs : list IdlAccountItem) :
  Forall shallow accs ->
  forall state,
    S (length (fold_left round accs state).2)
    = (S (length state.2) * 2 ^ length (List.filter is_group accs))%nat.
Proof.
  induction 1 as [|acc accs Hacc _ IH]; intros [params extra]; simpl;
    [lia|].
  rewrite IH.
  destruct acc as [name is_mut is_signer|name members]; simpl; [reflexivity|].
  pose proof (fold_leaves members Hacc ([], extra)) as Hleaves.
  destruct (fold_left round members ([], extra))
    as [nested_params nested_extra].
  simpl in *. subst nested_extra.
  rewrite length_app. simpl. lia.
Qed.

(** X19: sibling groups double the output: when every group holds leaves
    only, [gen_accounts] emits [2 ^ g] interfaces for [g] groups, although
    only [g + 1] are distinct; each round appends the extras gathered so
    far a second time. *)
Theorem gen_accounts_doubles (name : string) (accs : list IdlAccountItem) :
  Forall shallow accs ->
  length (gen_accounts upper_camel name accs None)
  = (2 ^ length (List.filter is_group accs))%nat.
Proof.
  intros Hshallow.
  pose proof (fold_shallow_length accs Hshallow ([], [])) as Hlen.
  unfold gen_accounts. simpl in *.
  destruct (fold_left round accs ([], [])) as [params nested].
  simpl in *. lia.
Qed.

Lemma round_only (acc : IdlAccountItem) :
  forall state n,
    In n (round state acc).2 ->
    In n state.2 \/ exists g, In g (groups_of acc) /\ n = dict g.
Proof.
  induction acc as [name is_mut is_signer|name members IH]
    using IdlAccountItem_members_ind; intros [params extra] n Hn.
  - now left.
  - assert (forall state n,
              In n (fold_left round members state).2 ->
              In n state.2
              \/ exists g, In g (flat_map groups_of members) /\ n = dict g)
      as Hfold.
    { clear Hn. induction IH as [|m members Hm _ IHmembers];
        intros state n' Hn'; simpl in *; [now left|].
      apply IHmembers in Hn' as [Hn'|(g & Hg & ->)].
      - apply Hm in Hn' as [Hn'|(g & Hg & ->)]; [now left|].
        right. exists g. split; [|reflexivity]. apply in_or_app. now left.
      - right. exists g. split; [|reflexivity]. apply in_or_app. now right. }
    pose proof (fold_params members ([], extra)) as Hparams.
    specialize (Hfold ([], extra)).
    simpl in *.
    destruct (fold_left round members ([], extra))
      as [nested_params nested_extra].
    simpl in *. subst nested_params.
    apply in_app_or in Hn as [Hn|[<-|Hn]].
    + now left.
    + right. exists (name, members). split; [now left|reflexivity].
    + apply Hfold in Hn as [Hn|(g & Hg & ->)]; [now left|].
      right. exists g. split; [now right|reflexivity].
Qed.

Lemma fold_only (accs : list IdlAccountItem) :
  forall state n,
    In n (fold_left round accs state).2 ->
    In n state.2 \/ exists g, In g (flat_map groups_of accs) /\ n = dict g.
Proof.
  induction accs as [|acc accs IH]; intros state n Hn; simpl in *;
    [now left|].
  apply IH in Hn as [Hn|(g & Hg & ->)].
  - apply round_only in Hn as [Hn|(g & Hg & ->)]; [now left|].
    right. exists g. split; [|reflexivity]. apply in_or_app. now left.
  - right. exists g. split; [|reflexivity]. apply in_or_app. now right.
Qed.

(** The interfaces [gen_accounts] emits are that of the root and those of
    the groups of the tree, each group having its own. *)
Lemma gen_accounts_nodes (name : string) (accs : list IdlAccountItem) :
  exists nested,
    gen_accounts upper_camel name accs None
    = TypedDict name (map param accs) :: nested
    /\ (forall g, In g (flat_map groups_of accs) -> In (dict g) nested)
    /\ (forall n, In n nested ->
                  exists g, In g (flat_map groups_of accs) /\ n = dict g).
Proof.
  assert (Forall round_keeps_and_adds accs) as Hall
    by (apply List.Forall_forall; intros acc _; apply round_keeps_and_adds_all).
  destruct (fold_keeps_and_adds accs Hall ([], [])) as [_ Hadd].
  pose proof (fold_params accs ([], [])) as Hparams.
  pose proof (fold_only accs ([], [])) as Honly.
  unfold gen_accounts. simpl in *.
  destruct (fold_left round accs ([], [])) as [params nested].
  simpl in *. subst params. exists nested.
  split; [reflexivity|]. split; [exact Hadd|].
  intros n Hn. now destruct (Honly n Hn) as [[]|Hg].
Qed.

Lemma interface_of_In (dicts : list node) (iface : string)
    (params : list typed_param) :
  interface_of dicts iface = Some params -> In (TypedDict iface params) dicts.
Proof.
  induction dicts as [|n dicts IH]; simpl; [discriminate|].
  destruct (interface_of dicts iface) as [found|].
  - intros [= <-]. right. now apply IH.
  - destruct n; try discriminate.
    destruct (decide _) as [->|]; [|discriminate].
    intros [= <-]. now left.
Qed.

Lemma interface_of_bound (dicts : list node) (iface : string)
    (params : list typed_param) :
  In (TypedDict iface params) dicts ->
  exists found, interface_of dicts iface = Some found.
Proof.
  induction dicts as [|n dicts IH]; simpl; [intros []|].
  intros [->|Hin].
  - destruct (interface_of dicts iface); [eauto|].
    rewrite decide_True by reflexivity. eauto.
  - destruct (IH Hin) as [found ->]. eauto.
Qed.

(** A name that one interface only is defined under, possibly several
    times over, is bound to that interface. *)
Lemma interface_of_unique (dicts : list node) (iface : string)
    (params : list typed_param) :
  In (TypedDict iface params) dicts ->
  (forall params', In (TypedDict iface params') dicts -> params' = params) ->
  interface_of dicts iface = Some params.
Proof.
  intros Hin Hunique.
  destruct (interface_of_bound _ _ _ Hin) as [found Hfound].
  rewrite Hfound. f_equal. apply Hunique. now apply interface_of_In.
Qed.

Lemma annotation_absent (members : list IdlAccountItem) (key : string) :
  ~ In key (map item_name members) ->
  annotation (map param members) key = None.
Proof.
  induction members as [|a members IH]; simpl; [reflexivity|].
  intros Hkey.
  assert (annotation (map param members) key = None) as Hrest
    by (apply IH; intros Hin; apply Hkey; now right).
  destruct a as [name is_mut is_signer|name accounts]; simpl in *;
    rewrite Hrest; apply decide_False; intros ->; apply Hkey; now left.
Qed.

(** Among members of distinct names, the key of a member carries the
    annotation of that member. *)
Lemma annotation_param (members : list IdlAccountItem) (acc : IdlAccountItem)
    (type : string) :
  NoDup (map item_name members) ->
  In acc members ->
  param acc = TypedParam (item_name acc) type ->
  annotation (map param members) (item_name acc) = Some type.
Proof.
  intros Hnodup Hacc Hparam.
  induction members as [|a members IH]; [destruct Hacc|].
  simpl in Hnodup. apply NoDup_cons in Hnodup as [Hfresh Hnodup].
  rewrite list_elem_of_In in Hfresh.
  destruct Hacc as [->|Hacc].
  - change (map param (acc :: members)) with (param acc :: map param members).
    rewrite Hparam. simpl.
    rewrite (annotation_absent members _ Hfresh).
    now rewrite decide_True.
  - change (map param (a :: members)) with (param a :: map param members).
    destruct (param a) as [name' type']. simpl.
    now rewrite (IH Hnodup Hacc).
Qed.

Lemma NoDup_map_eq {A B : Type} (f : A -> B) (l : list A) (a b : A) :
  NoDup (map f l) -> In a l -> In b l -> f a = f b -> a = b.
Proof.
  induction l as [|x l IH]; simpl; [intros _ []|].
  intros Hnodup Ha Hb Heq.
  apply NoDup_cons in Hnodup as [Hfresh Hnodup].
  rewrite list_elem_of_In in Hfresh.
  destruct Ha as [->|Ha], Hb as [->|Hb].
  - reflexivity.
  - destruct Hfresh. rewrite Heq. now apply in_map.
  - destruct Hfresh. rewrite <- Heq. now apply in_map.
  - now apply IH.
Qed.

Lemma flatten_item_addressable (dicts : list node) (acc : IdlAccountItem) :
  forall iface members prefix m,
    interface_of dicts iface = Some (map param members) ->
    NoDup (map item_name members) ->
    In acc members ->
    (forall g, In g (groups_of acc) ->
               interface_of dicts (upper_camel g.1 +:+ "Nested")
               = Some (map param g.2)
               /\ NoDup (map item_name g.2)) ->
    In m (flatten_item prefix acc) ->
    exists suffix,
      meta_path m = prefix ++ suffix /\ addressable dicts iface suffix.
Proof.
  induction acc as [name is_mut is_signer|name accounts IH]
    using IdlAccountItem_members_ind;
    intros iface members prefix m Hiface Hnodup Hacc Hgroups Hm.
  - destruct Hm as [<-|[]]. exists [name]. split; [reflexivity|].
    exists (map param members), "PublicKey".
    split; [exact Hiface|]. split; [|reflexivity].
    now apply (annotation_param members (IdlAccount name is_mut is_signer)).
  - simpl in Hm. apply in_flat_map in Hm as (member & Hmember & Hm).
    rewrite List.Forall_forall in IH.
    destruct (Hgroups (name, accounts) ltac:(now left)) as [Hnested Hnames].
    destruct (IH member Hmember
                (upper_camel name +:+ "Nested") accounts
                (prefix ++ [name]) m) as (suffix & Hpath & Haddr);
      [exact Hnested|exact Hnames|exact Hmember| |exact Hm|].
    + intros g Hg. apply Hgroups. right.
      apply in_flat_map. now exists member.
    + exists (name :: suffix). split; [now rewrite Hpath, <- app_assoc|].
      exists (map param members), (upper_camel name +:+ "Nested").
      split; [exact Hiface|]. split.
      * now apply (annotation_param members (IdlAccounts name accounts)).
      * destruct suffix; [destruct Haddr|exact Haddr].
Qed.

(** X20: when no two members of the root or of one group share a name
    and no two interfaces do, every element of the list
    [recurse_accounts] builds is the [AccountMeta] text of a leaf of the
    tree, and the path of keys it reads from the [accounts] argument is
    addressable through the interfaces [gen_accounts] emits for the same
    tree: each key is declared by the interface reached so far, a group
    with that group's interface and the leaf with [PublicKey]. *)
Theorem account_paths_addressable (name : string)
    (accs : list IdlAccountItem) (text : string) :
  distinct_siblings accs ->
  NoDup (interface_names upper_camel name accs) ->
  In text (recurse_accounts accs []) ->
  exists m,
    In m (flatten_tree [] accs)
    /\ text = meta_text m
    /\ addressable (gen_accounts upper_camel name accs None) name
         (meta_path m).
Proof.
  intros [Hroot Hsiblings] Hnames Htext.
  unfold recurse_accounts in Htext.
  apply in_flat_map in Htext as (acc & Hacc & Htext).
  rewrite recurse_account_flatten in Htext.
  apply in_map_iff in Htext as (m & <- & Hm).
  exists m. split; [apply in_flat_map; now exists acc|].
  split; [reflexivity|].
  destruct (gen_accounts_nodes name accs) as (nested & -> & Hadd & Honly).
  unfold interface_names in Hnames.
  apply NoDup_cons in Hnames as [Hfresh Hnames].
  rewrite list_elem_of_In in Hfresh.
  set (dicts := TypedDict name (map param accs) :: nested).
  assert (interface_of dicts name = Some (map param accs)) as Hiface.
  { apply interface_of_unique; [now left|].
    intros params' [[= <-]|Hin]; [reflexivity|].
    apply Honly in Hin as (g & Hg & [= Hname _]).
    destruct Hfresh. rewrite Hname.
    now apply (in_map (fun g => upper_camel g.1 +:+ "Nested")). }
  destruct (flatten_item_addressable dicts acc name accs [] m)
    as (suffix & Hpath & Haddr);
    [exact Hiface|exact Hroot|exact Hacc| |exact Hm|].
  - intros g Hg.
    assert (In g (flat_map groups_of accs)) as Hgroup
      by (apply in_flat_map; now exists acc).
    split; [|now apply Hsiblings].
    apply interface_of_unique; [right; now apply Hadd|].
    intros params' [[= Hname _]|Hin].
    + destruct Hfresh. rewrite Hname.
      now apply (in_map (fun g => upper_camel g.1 +:+ "Nested")).
    + apply Honly in Hin as (g' & Hg' & [= Hname ->]).
      now rewrite (NoDup_map_eq _ _ g g' Hnames Hgroup Hg' Hname).
  - simpl in Hpath. now rewrite Hpath.
Qed.

(** ** The generated files *)

Lemma fold_insert_lookup {A V : Type} (k : A -> string) (v : A -> V)
    (l : list A) (key : string) :
  forall m : gmap string V,
    fold_left (fun m x => <[k x := v x]> m) l m !! key
    = match find (fun x => bool_decide (k x = key)) (rev l) with
      | Some x => Some (v x)
      | None => m !! key
      end.
Proof.
  induction l as [|x l IH] using rev_ind; intros m; [reflexivity|].
  rewrite fold_left_app, rev_app_distr. simpl.
  destruct (bool_decide_reflect (k x = key)) as [<-|Hne].
  - apply lookup_insert_eq.
  - rewrite lookup_insert_ne by assumption. apply IH.
Qed.

(** X21: the dict of [gen_instructions_code] holds, under each file name,
    the module of the last instruction in the IDL that is given that
    name, behind the common import block; a name no instruction is given
    has no entry, and instructions that share a file name lose all but
    the last module. *)
Theorem gen_instructions_code_lookup (idl : Idl IdlType IdlTypeDef)
    (out filename : Path) :
  gen_instructions_code IdlType IdlTypeDef upper_camel _sighash
    _py_type_from_idl _layout_for_type _field_to_encodable str_StrDict
    path_div with_suffix idl out !! filename
  = contents idl (module_imports IdlType IdlTypeDef idl)
      <$> find (fun ix =>
                  bool_decide
                    (instruction_filename IdlType path_div with_suffix out ix
                     = filename))
            (rev (idl_instructions idl)).
Proof.
  unfold gen_instructions_code.
  rewrite (fold_insert_lookup
             (instruction_filename IdlType path_div with_suffix out)
             (contents idl (module_imports IdlType IdlTypeDef idl))).
  now destruct (find _ _).
Qed.

Lemma contents_accounts_interface (idl : Idl IdlType IdlTypeDef)
    (imports : list node) (ix : IdlInstruction IdlType) :
  exists params,
    In (TypedDict (_accounts_interface_name upper_camel (ix_name ix)) params)
       (contents idl imports ix).
Proof.
  unfold gen_instruction_contents.
  destruct (gen_accounts_head
              (_accounts_interface_name upper_camel (ix_name ix))
              (ix_accounts ix)) as (params & nested & ->).
  exists params.
  destruct (ix_args ix); cbv zeta iota beta;
    do 3 (apply in_or_app; right); apply in_or_app; left; left; reflexivity.
Qed.

Lemma contents_args_interface (idl : Idl IdlType IdlTypeDef)
    (imports : list node) (ix : IdlInstruction IdlType) :
  ix_args ix <> [] ->
  exists params,
    In (TypedDict (_args_interface_name upper_camel (ix_name ix)) params)
       (contents idl imports ix).
Proof.
  intros Hargs. unfold gen_instruction_contents.
  destruct (ix_args ix) as [|arg args]; [congruence|].
  cbv zeta iota beta. eexists.
  apply in_or_app. right. left. reflexivity.
Qed.

Lemma find_unique_key {A : Type} (k : A -> string) (l : list A) (x : A) :
  NoDup (map k l) ->
  In x l ->
  find (fun y => bool_decide (k y = k x)) l = Some x.
Proof.
  induction l as [|y l IH]; simpl; [intros _ []|].
  intros Hnodup Hx.
  apply NoDup_cons in Hnodup as [Hfresh Hnodup].
  rewrite list_elem_of_In in Hfresh.
  destruct (bool_decide_reflect (k y = k x)) as [Heq|Hne].
  - destruct Hx as [->|Hx]; [reflexivity|].
    destruct Hfresh. rewrite Heq. now apply in_map.
  - destruct Hx as [->|Hx]; [congruence|]. now apply IH.
Qed.

Lemma Forall2_map_pointwise {A B : Type} (P : A -> B -> Prop) (f : A -> B)
    (l : list A) :
  (forall x, In x l -> P x (f x)) -> Forall2 P l (map f l).
Proof.
  induction l as [|x l IH]; intros Hall; simpl; constructor.
  - apply Hall. now left.
  - apply IH. intros y Hy. apply Hall. now right.
Qed.

(** X22: when no two instructions are given the same file, the index
    imports one module per instruction, in declaration order, and every
    name it imports is an interface defined by the module the dict of
    [gen_instructions_code] holds under that instruction's file name. *)
Theorem gen_index_code_imports (idl : Idl IdlType IdlTypeDef) (out : Path) :
  NoDup (map (instruction_filename IdlType path_div with_suffix out)
           (idl_instructions idl)) ->
  Forall2
    (fun ix n =>
       exists members module,
         n = FromImport ("." +:+ ix_name ix) members
         /\ gen_instructions_code IdlType IdlTypeDef upper_camel _sighash
              _py_type_from_idl _layout_for_type _field_to_encodable
              str_StrDict path_div with_suffix idl out
            !! instruction_filename IdlType path_div with_suffix out ix
            = Some module
         /\ forall m, In m members ->
              exists params, In (TypedDict m params) module)
    (idl_instructions idl)
    (gen_index_code IdlType IdlTypeDef upper_camel idl).
Proof.
  intros Hnodup. unfold gen_index_code.
  apply Forall2_map_pointwise. intros ix Hix.
  eexists. exists (contents idl (module_imports IdlType IdlTypeDef idl) ix).
  split; [reflexivity|]. split.
  - unfold gen_instructions_code.
    rewrite (fold_insert_lookup
               (instruction_filename IdlType path_div with_suffix out)
               (contents idl (module_imports IdlType IdlTypeDef idl))).
    rewrite find_unique_key; [reflexivity| |].
    + rewrite map_rev.
      now apply NoDup_ListNoDup, List.NoDup_rev, NoDup_ListNoDup.
    + rewrite <- in_rev. exact Hix.
  - intros m Hm. apply in_app_or in Hm as [Hm|Hm].
    + destruct (ix_args ix) as [|arg args] eqn:Hargs; [destruct Hm|].
      destruct Hm as [<-|[]].
      apply contents_args_interface. congruence.
    + destruct (ix_accounts ix) as [|acc accs]; [destruct Hm|].
      destruct Hm as [<-|[]]. apply contents_accounts_interface.
Qed.

End InterfaceFacts.

(** ** The further properties on the example data *)

Lemma fetch_multiple_returns_witness :
  Counter.fetch_multiple Samples.program_id Base64.b64decode Samples.own_conn
    [inl Samples.authority; inl Samples.authority] None
  = Returns [Some Samples.counter; Some Samples.counter].
Proof.
  apply (proj2 (fetch_multiple_returns Samples.program_id Base64.b64decode
                  Samples.own_conn [inl Samples.authority; inl Samples.authority]
                  None
                  [Some (Samples.counter_info Samples.program_id);
                   Some (Samples.counter_info Samples.program_id)]
                  [Some Samples.counter; Some Samples.counter]
                  ltac:(vm_compute; reflexivity))).
  repeat constructor;
    exists (Samples.counter_info Samples.program_id), Samples.counter;
    repeat split; try reflexivity;
    exists Samples.counter_base64, Samples.counter_bytes;
    repeat split; vm_compute; reflexivity.
Defined.

(** The account of the system program comes second; the vacant address
    after it is never reached. *)
Lemma fetch_multiple_first_failure_witness :
  Counter.fetch_multiple Samples.program_id Base64.b64decode Samples.mixed_conn
    [inl Samples.authority; inl Samples.system_program; inl Samples.program_id]
    None
  = Raises (ValueError "Account does not belong to this program").
Proof.
  apply (proj2 (fetch_multiple_first_failure Samples.program_id
                  Base64.b64decode Samples.mixed_conn
                  [inl Samples.authority; inl Samples.system_program;
                   inl Samples.program_id]
                  None
                  [Some (Samples.counter_info Samples.program_id);
                   Some (Samples.counter_info Samples.system_program); None]
                  (ValueError "Account does not belong to this program")
                  ltac:(vm_compute; reflexivity))).
  exists [Samples.counter_info Samples.program_id], [Samples.counter],
    (Some (Samples.counter_info Samples.system_program)), [None].
  split; [reflexivity|]. split.
  - repeat constructor; try reflexivity.
    exists Samples.counter_base64, Samples.counter_bytes.
    repeat split; vm_compute; reflexivity.
  - intros address. vm_compute. reflexivity.
Defined.

(** A vacant address before the account of the system program: the
    exception is that of the vacant slot. *)
Example fetch_multiple_absent_before_foreign :
  Counter.fetch_multiple Samples.program_id Base64.b64decode Samples.mixed_conn
    [inl Samples.program_id; inl Samples.system_program] None
  = Raises (TypeError "'NoneType' object is not subscriptable").
Proof. vm_compute. reflexivity. Qed.

Lemma decode_truncated_witness :
  Counter.decode (Counter.discriminator ++ [x01; x02; x03])
  = Raises StreamError.
Proof.
  apply (decode_truncated (Counter.discriminator ++ [x01; x02; x03])).
  - reflexivity.
  - simpl. lia.
Defined.

Lemma decode_ignores_trailing_witness :
  Counter.decode (Samples.counter_bytes ++ [xde; xad])
  = Counter.decode Samples.counter_bytes.
Proof.
  apply (decode_ignores_trailing Samples.counter_bytes [xde; xad]).
  simpl. lia.
Defined.

Lemma decode_returns_well_formed_witness :
  take 8 Samples.counter_bytes = Counter.discriminator
  /\ (48 <= length Samples.counter_bytes)%nat
  /\ PublicKey.key (Counter.authority Samples.counter)
     = take 32 (drop 8 Samples.counter_bytes)
  /\ PublicKey.valid (Counter.authority Samples.counter)
  /\ Counter.count Samples.counter
     = borsh.int_from_little (take 8 (drop 40 Samples.counter_bytes))
  /\ 0 <= Counter.count Samples.counter < 2 ^ 64.
Proof.
  apply (decode_returns_well_formed Samples.counter_bytes Samples.counter).
  vm_compute. reflexivity.
Defined.

Lemma decode_json_round_trip_witness :
  Counter.from_json (Counter.to_json Samples.counter) = Returns Samples.counter.
Proof.
  apply (decode_json_round_trip Samples.counter_bytes Samples.counter).
  vm_compute. reflexivity.
Defined.

Lemma to_json_injective_witness :
  Counter.mk Samples.authority 7 = Samples.counter.
Proof.
  apply (to_json_injective (Counter.mk Samples.authority 7) Samples.counter);
    reflexivity.
Defined.

Lemma to_json_from_json_witness :
  PublicKey.valid (Counter.authority Samples.counter)
  /\ Counter.count Samples.counter = Counter.json_count Samples.counter_json
  /\ Counter.to_json Samples.counter = Samples.counter_json.
Proof.
  apply (to_json_from_json Samples.counter_json Samples.counter).
  vm_compute. reflexivity.
Defined.

(** Text that ends in a newline, and the base58 text of three bytes. *)
Example from_json_trailing_newline :
  Counter.from_json Samples.counter_json_newline
  = Raises (ValueError "invalid public key input:").
Proof. vm_compute. reflexivity. Qed.

Lemma from_json_raises_witness :
  Counter.from_json {| Counter.json_authority := "Ldp";
                       Counter.json_count := 1 |}
  = Raises (ValueError "invalid public key input:").
Proof.
  destruct (from_json_raises {| Counter.json_authority := "Ldp";
                                Counter.json_count := 1 |})
    as [Honly Hwhen].
  destruct (proj2 Hwhen) as [e He].
  - intros (k & Hk & Hlen). vm_compute in Hk. injection Hk as <-.
    vm_compute in Hlen. discriminate.
  - rewrite He. f_equal. now apply Honly.
Defined.

Lemma from_tx_error_unmatched_witness :
  errors.from_tx_error Samples.program_id string string
    Samples.custom_from_code Samples.anchor_from_code
    {[ "logs" := ["Program log: Instruction: Play"; "Program consumed 3 units"] ]}
  = Returns None.
Proof.
  apply (from_tx_error_unmatched Samples.program_id string string
           Samples.custom_from_code Samples.anchor_from_code).
  right. exists ["Program log: Instruction: Play"; "Program consumed 3 units"].
  split; [vm_compute; reflexivity|]. split; [discriminate|].
  repeat constructor.
Defined.

(** A failure of the system program is met first; the failure of
    [program_id] on the next line goes unseen. *)
Lemma from_tx_error_other_program_witness :
  errors.from_tx_error Samples.program_id string string
    Samples.custom_from_code Samples.anchor_from_code
    {[ "logs" :=
         [ "Program log: Instruction: Play";
           "Program 11111111111111111111111111111111 failed: custom program error: 0x0";
           Samples.failure_log "0x1770" ] ]}
  = Returns None.
Proof.
  apply (from_tx_error_other_program Samples.program_id string string
           Samples.custom_from_code Samples.anchor_from_code _
           ["Program log: Instruction: Play"] [Samples.failure_log "0x1770"]
           "Program 11111111111111111111111111111111 failed: custom program error: 0x0"
           "11111111111111111111111111111111" "0x0").
  - vm_compute. reflexivity.
  - repeat constructor.
  - vm_compute. reflexivity.
  - vm_compute. discriminate.
Defined.

Lemma from_tx_error_first_match_only_witness :
  errors.from_tx_error Samples.program_id string string
    Samples.custom_from_code Samples.anchor_from_code
    (<["logs" := ["Program log: Instruction: Play"]
                  ++ Samples.failure_log "zz" :: ["Program log: done"]]> ∅)
  = errors.from_tx_error Samples.program_id string string
      Samples.custom_from_code Samples.anchor_from_code
      (<["logs" := [Samples.failure_log "zz"]]> ∅).
Proof.
  apply (from_tx_error_first_match_only Samples.program_id string string
           Samples.custom_from_code Samples.anchor_from_code ∅
           ["Program log: Instruction: Play"] ["Program log: done"]
           (Samples.failure_log "zz")).
  - repeat constructor.
  - vm_compute. discriminate.
Defined.

Lemma gen_accounts_groups_witness :
  In (instructions.TypedDict "PoolNested"
        [ instructions.TypedParam "vaultA" "PublicKey";
          instructions.TypedParam "vaultB" "PublicKey" ])
     (instructions.gen_accounts Samples.upper_camel "SwapAccounts"
        Samples.pool_accounts None).
Proof.
  apply (gen_accounts_groups Samples.upper_camel "SwapAccounts"
           Samples.pool_accounts
           ("pool", [ instructions.IdlAccount "vaultA" true false;
                      instructions.IdlAccount "vaultB" true false ])).
  simpl. left. reflexivity.
Defined.

(** Two groups, four interfaces: that of [poolA] is emitted twice. *)
Lemma gen_accounts_doubles_witness :
  length (instructions.gen_accounts Samples.upper_camel "SwapAccounts"
            Samples.two_pools None) = 4%nat.
Proof.
  apply (gen_accounts_doubles Samples.upper_camel "SwapAccounts"
           Samples.two_pools).
  repeat constructor.
Defined.

Example gen_accounts_two_pools :
  instructions.gen_accounts Samples.upper_camel "SwapAccounts"
    Samples.two_pools None
  = [ instructions.TypedDict "SwapAccounts"
        [ instructions.TypedParam "poolA" "PoolANested";
          instructions.TypedParam "payer" "PublicKey";
          instructions.TypedParam "poolB" "PoolBNested" ];
      instructions.TypedDict "PoolANested"
        [ instructions.TypedParam "vault" "PublicKey" ];
      instructions.TypedDict "PoolBNested"
        [ instructions.TypedParam "vault" "PublicKey" ];
      instructions.TypedDict "PoolANested"
        [ instructions.TypedParam "vault" "PublicKey" ] ].
Proof. vm_compute. reflexivity. Qed.

Lemma fetch_returns_record_witness :
  Counter.fetch Samples.program_id Base64.b64decode Samples.own_conn
    Samples.authority None
  = Returns (Some Samples.counter).
Proof.
  apply (proj2 (fetch_returns_record Samples.program_id Base64.b64decode
                  Samples.own_conn Samples.authority None Samples.counter)).
  exists (Samples.counter_info Samples.program_id).
  split; [vm_compute; reflexivity|].
  split; [reflexivity|].
  exists Samples.counter_base64, Samples.counter_bytes.
  repeat split; vm_compute; reflexivity.
Defined.

Lemma fetch_returns_none_witness :
  Counter.fetch Samples.program_id Base64.b64decode Samples.own_conn
    Samples.program_id None
  = Returns None.
Proof.
  apply (proj2 (fetch_returns_none Samples.program_id Base64.b64decode
                  Samples.own_conn Samples.program_id None)).
  vm_compute. reflexivity.
Defined.

Lemma account_paths_addressable_witness :
  exists m,
    In m (instructions.flatten_tree [] Samples.pool_accounts)
    /\ "AccountMeta(pubkey=accounts[" +:+ instructions.quote_mark +:+ "pool"
         +:+ instructions.quote_mark +:+ "][" +:+ instructions.quote_mark
         +:+ "vaultB" +:+ instructions.quote_mark
         +:+ "], is_signer=False, is_writable=True)"
       = instructions.meta_text m
    /\ instructions.addressable
         (instructions.gen_accounts Samples.upper_camel "SwapAccounts"
            Samples.pool_accounts None)
         "SwapAccounts" (instructions.meta_path m).
Proof.
  apply (account_paths_addressable Samples.upper_camel "SwapAccounts"
           Samples.pool_accounts).
  - split.
    + apply NoDup_ListNoDup. repeat constructor; simpl; intuition discriminate.
    + intros g Hg. simpl in Hg. destruct Hg as [<-|[]].
      apply NoDup_ListNoDup. repeat constructor; simpl; intuition discriminate.
  - apply NoDup_ListNoDup. repeat constructor; simpl; intuition discriminate.
  - simpl. right. right. left. reflexivity.
Defined.

(** Two groups named [a] with different members: the interfaces of both
    are emitted under the name [ANested], that of the outer one last, and
    the path the second [AccountMeta] reads through the inner one is
    declared by no interface. *)
Example clashing_names_not_addressable :
  In ("AccountMeta(pubkey=accounts[" +:+ instructions.quote_mark +:+ "b"
        +:+ instructions.quote_mark +:+ "][" +:+ instructions.quote_mark
        +:+ "a" +:+ instructions.quote_mark +:+ "]["
        +:+ instructions.quote_mark +:+ "y" +:+ instructions.quote_mark
        +:+ "], is_signer=False, is_writable=True)")
     (instructions.recurse_accounts Samples.clashing_accounts [])
  /\ ~ instructions.addressable
         (instructions.gen_accounts Samples.upper_camel "Accs"
            Samples.clashing_accounts None)
         "Accs" ["b"; "a"; "y"].
Proof.
  split; [right; left; reflexivity|].
  intros (params & type & Hiface & Hkey
          & params' & type' & Hiface' & Hkey'
          & params'' & type'' & Hiface'' & Hkey'' & _).
  vm_compute in Hiface. injection Hiface as <-.
  vm_compute in Hkey. injection Hkey as <-.
  vm_compute in Hiface'. injection Hiface' as <-.
  vm_compute in Hkey'. injection Hkey' as <-.
  vm_compute in Hiface''. injection Hiface'' as <-.
  vm_compute in Hkey''. discriminate.
Qed.

Lemma gen_index_code_imports_witness :
  Forall2
    (fun ix n =>
       exists members module,
         n = instructions.FromImport ("." +:+ instructions.ix_name ix) members
         /\ instructions.gen_instructions_code unit unit Samples.upper_camel
              Samples.sighash Samples.py_type_from_idl Samples.layout_for_type
              Samples.field_to_encodable Samples.str_StrDict Samples.path_div
              Samples.with_suffix Samples.basic_2_full "instructions"
            !! instructions.instruction_filename unit Samples.path_div
                 Samples.with_suffix "instructions" ix
            = Some module
         /\ forall m, In m members ->
              exists params, In (instructions.TypedDict m params) module)
    [Samples.create; Samples.increment]
    (instructions.gen_index_code unit unit Samples.upper_camel
       Samples.basic_2_full).
Proof.
  apply (gen_index_code_imports unit unit Samples.upper_camel
           Samples.sighash Samples.py_type_from_idl Samples.layout_for_type
           Samples.field_to_encodable Samples.str_StrDict Samples.path_div
           Samples.with_suffix Samples.basic_2_full "instructions").
  apply NoDup_ListNoDup. repeat constructor; simpl; intuition discriminate.
Defined.

(** Two instructions named [dup]: both modules go to [dup.py], the dict
    keeps the second, and the name [DupArgs] the index imports for the
    first is defined nowhere in it. *)
Example gen_index_code_shared_file :
  instructions.gen_index_code unit unit Samples.upper_camel Samples.dup_idl
  = [ instructions.FromImport ".dup" ["DupArgs"; "DupAccounts"];
      instructions.FromImport ".dup" ["DupAccounts"] ]
  /\ exists module,
       instructions.gen_instructions_code unit unit Samples.upper_camel
         Samples.sighash Samples.py_type_from_idl Samples.layout_for_type
         Samples.field_to_encodable Samples.str_StrDict Samples.path_div
         Samples.with_suffix Samples.dup_idl "instructions"
       !! "instructions/dup.py"
       = Some module
       /\ forall params, ~ In (instructions.TypedDict "DupArgs" params) module.
Proof.
  split; [vm_compute; reflexivity|].
  eexists. split; [vm_compute; reflexivity|].
  intros params Hin. simpl in Hin.
  repeat (destruct Hin as [Hin|Hin]; [discriminate|]). exact Hin.
Qed.
